(** * The estimator core of the resampling bidirectional path tracer

    A shallow embedding of [our::renderer] (renderer-impl.hpp): the
    constructor, [render], [radiance], [calculate_0t], [calculate_s1] and
    [calculate_st], over IEEE-754 binary32/binary64 arithmetic as specified
    by the Standard Library's [SpecFloat].  Collaborators that live outside
    the file (scene, camera, sub-paths, caches, random numbers) are consumed
    through the interface [Externals]. *)

From Stdlib Require Import ZArith NArith List Bool Lia QArith Sorted.
From Stdlib Require Import Floats.SpecFloat.
From stdpp Require Import base list.

Local Open Scope nat_scope.

(* ================================================================== *)
(** ** Floating point: C++ [float] and [double] *)
(* ================================================================== *)

(** C++ [float]: binary32, round to nearest even. *)
Module F32.
Definition prec : Z := 24.
Definition emax : Z := 128.
Definition add := SFadd prec emax.
Definition sub := SFsub prec emax.
Definition mul := SFmul prec emax.
Definition div := SFdiv prec emax.
Definition sqrt := SFsqrt prec emax.
Definition ltb := SFltb.
Definition eqb := SFeqb.
  (** integer to float conversion, e.g. [float(Nc + 1)] *)
Definition of_Z (n : Z) : spec_float := binary_normalize prec emax n 0 false.
Definition of_N (n : N) : spec_float := of_Z (Z.of_N n).
Definition of_nat (n : nat) : spec_float := of_Z (Z.of_nat n).
Definition zero : spec_float := S754_zero false.
Definition one : spec_float := of_Z 1.
  (** [std::max(a, b)] is [(a < b) ? b : a] *)
Definition max (a b : spec_float) : spec_float := if ltb a b then b else a.
End F32.

(** C++ [double]: binary64. *)
Module F64.
Definition prec : Z := 53.
Definition emax : Z := 1024.
Definition add := SFadd prec emax.
Definition div := SFdiv prec emax.
Definition of_Z (n : Z) : spec_float := binary_normalize prec emax n 0 false.
Definition of_N (n : N) : spec_float := of_Z (Z.of_N n).
Definition of_nat (n : nat) : spec_float := of_Z (Z.of_nat n).
Definition zero : spec_float := S754_zero false.
  (** the narrowing conversion [float(d)] *)
Definition to_f32 (d : spec_float) : spec_float :=
    match d with
    | S754_finite s m e => binary_round F32.prec F32.emax s m e
    | _ => d
    end.
End F64.

Abbreviation float := spec_float.
Abbreviation double := spec_float.

(** [std::isnan] *)
Definition isnan (x : float) : bool :=
  match x with S754_nan => true | _ => false end.

(** [std::isfinite]: neither an infinity nor a NaN *)
Definition isfinite (x : float) : bool :=
  match x with S754_nan | S754_infinity _ => false | _ => true end.

(** the sign bit is clear, or the value is a NaN: not a negative number *)
Definition sign_clear (x : float) : bool :=
  match x with
  | S754_zero s | S754_infinity s | S754_finite s _ _ => negb s
  | S754_nan => true
  end.

Definition pos_inf : float := S754_infinity false.
Definition neg_inf : float := S754_infinity true.

(* ================================================================== *)
(** ** Undefined behaviour as an explicit outcome *)
(* ================================================================== *)

(** The C++ code has no checked failure: reading a vector past its end or
    reading a variable that was never assigned is undefined behaviour.  The
    embedding makes both visible. *)
Inductive fault := OutOfBounds | Uninitialised.

Inductive outcome (A : Type) : Type :=
| Ok (a : A)
| Fault (f : fault).
Arguments Ok {A} a.
Arguments Fault {A} f.

#[global] Instance outcome_bind : MBind outcome := fun A B k c =>
  match c with
  | Ok a => k a
  | Fault f => Fault f
  end.

(** [v[i]] on a [std::vector] (unchecked) *)
Definition at_index {A} (v : list A) (i : nat) : outcome A :=
  match v !! i with
  | Some a => Ok a
  | None => Fault OutOfBounds
  end.

(** [v[i] = a] *)
Definition store_at {A} (v : list A) (i : nat) (a : A) : outcome (list A) :=
  if decide (i < length v) then Ok (<[i:=a]> v) else Fault OutOfBounds.

(** A [for] loop whose body may hit undefined behaviour. *)
Fixpoint for_each {A S} (l : list A) (body : A -> S -> outcome S) (s : S)
  : outcome S :=
  match l with
  | [] => Ok s
  | a :: l' => s' ← body a s; for_each l' body s'
  end.

(** [size_t] arithmetic: subtraction wraps modulo 2^64. *)
Definition size_t_sub (a b : N) : N :=
  Z.to_N ((Z.of_N a - Z.of_N b) mod 2 ^ 64).

(** conversion of an integer result to [size_t] *)
Definition to_size_t (k : Z) : nat := Z.to_nat (k mod 2 ^ 64).

(* ================================================================== *)
(** ** Colours and images *)
(* ================================================================== *)

Record col3 := mk_col3 { col_r : float; col_g : float; col_b : float }.

(** [col[k]] for [k] = 0, 1, 2 *)
Definition channel (c : col3) (k : nat) : float :=
  match k with
  | 0 => col_r c
  | 1 => col_g c
  | _ => col_b c
  end.

(** [col3()] *)
Definition col3_zero : col3 := mk_col3 F32.zero F32.zero F32.zero.

Definition col3_add (a b : col3) : col3 :=
  mk_col3 (F32.add (col_r a) (col_r b)) (F32.add (col_g a) (col_g b))
          (F32.add (col_b a) (col_b b)).

(** component-wise product [a * b] *)
Definition col3_mul (a b : col3) : col3 :=
  mk_col3 (F32.mul (col_r a) (col_r b)) (F32.mul (col_g a) (col_g b))
          (F32.mul (col_b a) (col_b b)).

(** [a * k] for a scalar [k] *)
Definition col3_scale (a : col3) (k : float) : col3 :=
  mk_col3 (F32.mul (col_r a) k) (F32.mul (col_g a) k) (F32.mul (col_b a) k).

(** [imagef]: [w * h] pixels stored row by row, pixel [(x, y)] at
    [x + w * y] (the layout [render] relies on when it clears
    [m_buf_s1] with one [memset] from pixel (0,0)). *)
Record imagef := mk_imagef { img_w : nat; img_h : nat; img_data : list col3 }.

(** Modelled from the spec: the image container is not part of the source;
    [imagef(w, h)] allocates [w * h] pixels, all zero ("a scene with zero
    light sources produces an all-zero image"). *)
Definition imagef_new (w h : nat) : imagef :=
  mk_imagef w h (replicate (w * h) col3_zero).

Definition pixel_index (img : imagef) (x y : nat) : nat := x + img_w img * y.

(** reading [img(x, y)] *)
Definition pixel_get (img : imagef) (x y : nat) : outcome col3 :=
  at_index (img_data img) (pixel_index img x y).

(** writing the three channels of [img(x, y)] *)
Definition pixel_set (img : imagef) (x y : nat) (c : col3) : outcome imagef :=
  d ← store_at (img_data img) (pixel_index img x y) c;
  Ok (mk_imagef (img_w img) (img_h img) d).

(** [memset(img(0,0), 0, sizeof(float) * 3 * n)] *)
Definition memset_zero (img : imagef) (n : nat) : outcome imagef :=
  if decide (n <= length (img_data img)) then
    Ok (mk_imagef (img_w img) (img_h img)
          (replicate n col3_zero ++ drop n (img_data img)))
  else Fault OutOfBounds.

(** the pixels of a [w * h] grid in the order [for y { for x { .. } }] *)
Definition grid (w h : nat) : list (nat * nat) :=
  y ← seq 0 h; (fun x => (x, y)) <$> seq 0 w.

(* ================================================================== *)
(** ** Collaborators *)
(* ================================================================== *)

(** Vectors, directions, materials, the scene, the camera and the random
    number generator: the types and operations the estimator calls. *)
Class Geometry := {
  vec3 : Type;
  direction : Type;
  brdf : Type;
  scene : Type;
  camera : Type;
  rng : Type;
  vec3_sub : vec3 -> vec3 -> vec3;
  vec3_div : vec3 -> float -> vec3;
  squared_norm : vec3 -> float;
  (** [direction(w, n)] and [direction()] *)
  make_direction : vec3 -> vec3 -> direction;
  direction_default : direction;
  direction_neg : direction -> vec3;
  is_invalid : direction -> bool;
  in_lower_hemisphere : direction -> bool;
  abs_cos : direction -> float;
  brdf_f : brdf -> direction -> col3;
  (** [scene.intersect(ray(o, d, t))] *)
  scene_intersect : scene -> vec3 -> direction -> float -> bool;
  res_x : camera -> nat;
  res_y : camera -> nat;
  (** [camera.calc_intersection]: [Some (x, y)] when [is_valid] *)
  calc_intersection : camera -> vec3 -> direction -> option (nat * nat);
  camera_We : camera -> direction -> float;
  generate_uniform_real : rng -> float * rng;
  generate_uniform_int : rng -> Z -> Z -> Z * rng;
  (** [candidate(path, j).s()] as a function of the index [j] the candidate
      was built with *)
  candidate_s : nat -> nat;
}.

Section Model.
Context `{G : Geometry}.

(** [candidate(m_light_paths[i], j)]: a reference to light sub-path [i]
    and the vertex index [j] it was built with. *)
Record candidate := mk_candidate { cand_path : nat; cand_vertex : nat }.

(** [p_candidate->s()] *)
Definition cand_s (c : candidate) : nat := candidate_s (cand_vertex c).

(** the result of [cache::sample]: the element drawn, its index from
    [begin()], and its probability *)
Record sample_result := mk_sample {
  smp_idx : nat;
  smp_elem : candidate;
  smp_pmf : float;
}.

(** What [calculate_st] reads from a cache point. *)
Record cache := mk_cache {
  cache_Q : float;
  normalization_constant : float;
  cache_pmf : nat -> float;
  cache_sample : rng -> sample_result * rng;
}.

Record light_path_vertex := mk_light_vertex {
  lv_p : vec3;
  lv_n : vec3;
  lv_brdf : brdf;
  lv_Le_throughput : col3;
}.
Definition light_path := list light_path_vertex.

Record camera_path_vertex := mk_camera_vertex {
  cv_p : vec3;
  cv_n : vec3;
  cv_is_emissive : bool;
  (** [material().Le(intersection(), wo())] *)
  cv_Le : col3;
  cv_wi : direction;
  cv_wo : direction;
  cv_brdf : brdf;
  cv_throughput_We : col3;
  cv_pdf_fwd : float;
  (** [neighbor_cache(i)], [i < Nc] *)
  cv_neighbor_cache : list cache;
}.
Definition camera_path := list camera_path_vertex.

(** Sub-path construction, cache points and the partial MIS weights, with the
    two constants of the class declaration. *)
Class Collaborators := {
  Nc : nat;
  mis_threshold : float;
  (** the coarse camera of lines 45-48 *)
  camera_for_gen_caches : camera -> camera;
  (** [camera_path::construct] without and with cache points *)
  construct_camera_path_first :
    scene -> camera -> nat -> nat -> rng -> camera_path * rng;
  construct_camera_path :
    scene -> camera -> nat -> nat -> rng -> list cache -> camera_path * rng;
  (** [cache(v, first_iteration)] *)
  make_cache : camera_path_vertex -> bool -> cache;
  (** [kd_tree<cache>(caches, position)]: the caches in tree order *)
  kd_tree_build : list cache -> list cache;
  (** [light_path::construct(scene, rng, caches)], called on an element of
      [m_light_paths]: taken to rebuild the sub-path from its arguments, so
      that what the element held before the call is no input *)
  construct_light_path : scene -> rng -> list cache -> light_path;
  calc_distribution : scene -> list candidate -> N -> cache -> cache;
  light_mis_partial_weight :
    light_path -> nat -> camera_path -> nat -> direction -> direction ->
    N -> float -> float;
  camera_mis_partial_weight :
    scene -> light_path -> nat -> camera_path -> nat -> direction ->
    direction -> N -> float -> float;
}.
Context `{C : Collaborators}.

(** The generator states of the workers: [in_parallel] runs its body once per
    index on some worker thread, each with a [thread_local] generator. *)
Record schedule := mk_schedule {
  probe_rng : nat -> nat -> rng;
  light_rng : nat -> rng;
  pixel_rng : nat -> nat -> rng;
}.

(* ================================================================== *)
(** ** The renderer *)
(* ================================================================== *)

(** Modelled from the spec: the class declaration is not part of the source.
    [m_M] and [m_nt] are initialised from [size_t] arguments; the iteration
    counter is the spec's counter of frames, a natural number; the running
    sum is a [double] and the estimate [m_Qp] a [float], as the conversions
    of lines 109-110 say.  [m_locks] is the array of spinlocks of line 21:
    the pixels are run one after the other here, so a spinlock holds no
    state, and what is kept of the array is its number of elements, which
    bounds the indices line 225 may use. *)
Record renderer := mk_renderer {
  m_M : N;
  m_nt : N;
  m_ns1 : nat;
  m_sum : double;
  m_ite : nat;
  m_Qp : float;
  m_buf_s1 : imagef;
  m_locks : nat;
  m_light_paths : list light_path;
  m_candidates : list candidate;
  m_caches : list cache;
}.

(** The outcome of a constructor call: an object, or a rejection. *)
Inductive constructed :=
| Constructed (r : renderer)
| Rejected.

(** [renderer::renderer] (lines 12-22).  [m_Qp] is not initialised: its
    content [junk] is whatever the storage held. *)
Definition renderer_new (cam : camera) (M nt : N) (junk : float) : constructed :=
  Constructed
    {| m_M := M; m_nt := nt;
       m_ns1 := res_x cam * res_y cam;
       m_sum := F64.zero;
       m_ite := 0;
       m_Qp := junk;
       m_buf_s1 := imagef_new (res_x cam) (res_y cam);
       m_locks := res_x cam * res_y cam;
       m_light_paths := [];
       m_candidates := [];
       m_caches := [] |}.


(* ================================================================== *)
(** ** Strategies (s = 0, t >= 2): unidirectional path tracing *)
(* ================================================================== *)

(** [renderer::calculate_0t] (lines 161-181) *)
Definition calculate_0t (r : renderer) (sc : scene) (y : light_path)
    (z : camera_path) : outcome col3 :=
  let t := length z in
  if decide (2 <= t) then
    ztm1 ← at_index z (t - 1);
    if cv_is_emissive ztm1 then
      let mis_weight :=
        F32.div F32.one
          (F32.add F32.one
             (camera_mis_partial_weight sc y 0 z t direction_default
                (cv_wi ztm1) (m_M r) (m_Qp r))) in
      Ok (col3_scale (col3_mul (cv_Le ztm1) (cv_throughput_We ztm1)) mis_weight)
    else Ok col3_zero
  else Ok col3_zero.

(* ================================================================== *)
(** ** Strategies (s >= 1, t = 1): light tracing into the scatter buffer *)
(* ================================================================== *)

(** one iteration of the loop of [renderer::calculate_s1] (lines 190-230);
    the buffer is returned unchanged on every [continue].  The pixels are run
    one after the other here, so taking and releasing the spinlock of line
    225 changes nothing; what remains of that line is the unchecked access
    [m_locks[screen_pos.x + camera.res_x() * screen_pos.y]], whose index is
    formed with the width of the camera of this call and must lie within the
    array the constructor allocated. *)
Definition calculate_s1_body (r : renderer) (sc : scene) (cam : camera)
    (y : light_path) (z : camera_path) (s : nat) (buf : imagef)
    : outcome imagef :=
  z0 ← at_index z 0;
  ysm1 ← at_index y (s - 1);
  let tmp_zy := vec3_sub (lv_p ysm1) (cv_p z0) in
  let dist2 := squared_norm tmp_zy in
  let dist := F32.sqrt dist2 in
  let zy := make_direction (vec3_div tmp_zy dist) (cv_n z0) in
  if is_invalid zy || in_lower_hemisphere zy then Ok buf else
  let yz := make_direction (direction_neg zy) (lv_n ysm1) in
  if is_invalid yz || in_lower_hemisphere yz then Ok buf else
  match calc_intersection cam (cv_p z0) zy with
  | Some (px, py) =>
    if scene_intersect sc (cv_p z0) zy dist then Ok buf else
    let fyz := brdf_f (lv_brdf ysm1) yz in
    let We := camera_We cam zy in
    let G := F32.div (F32.mul (abs_cos yz) (abs_cos zy)) dist2 in
    let ns1 := F32.of_nat (m_ns1 r) in
    let mis_weight :=
      F32.div ns1
        (F32.add
           (F32.add (light_mis_partial_weight y s z 1 yz zy (m_M r) (m_Qp r))
                    ns1)
           F32.zero) in
    let contrib :=
      col3_scale (col3_mul (lv_Le_throughput ysm1) fyz)
        (F32.mul (F32.div (F32.mul We G) (cv_pdf_fwd z0)) mis_weight) in
    if decide (px + res_x cam * py < m_locks r) then
      old ← pixel_get buf px py;
      pixel_set buf px py (col3_add old contrib)
    else Fault OutOfBounds
  | None => Ok buf
  end.

(** [renderer::calculate_s1]: [for (s = 1; s <= nL; s++)] *)
Definition calculate_s1 (r : renderer) (sc : scene) (cam : camera)
    (y : light_path) (z : camera_path) (buf : imagef) : outcome imagef :=
  for_each (seq 1 (length y)) (calculate_s1_body r sc cam y z) buf.

(* ================================================================== *)
(** ** Strategies (s >= 1, t >= 2): resampling *)
(* ================================================================== *)

(** The inline scan of lines 256-261, for any arithmetic: [n] bins are left
    to try, [i] is the bin under test, [dflt] the index kept when none
    matches. *)
Fixpoint select_scan {A} (lt : A -> A -> bool) (minus : A -> A -> A) (p : A)
    (dflt n i : nat) (u : A) : nat :=
  match n with
  | 0 => dflt
  | S n' =>
    if lt u p then i else select_scan lt minus p dflt n' (S i) (minus u p)
  end.

(** [1 / float(Nc + 1)] *)
Definition selector_pmf : float := F32.div F32.one (F32.of_nat (Nc + 1)).

(** lines 252-262 on [float] *)
Definition select_cache (u : float) : nat :=
  select_scan F32.ltb F32.sub selector_pmf Nc Nc 0 u.

(** [(1 / float(Nc + 1)) * m_M / ((m_M - 1) * x + 1)] *)
Definition mis_term (M : N) (x : float) : float :=
  F32.div (F32.mul selector_pmf (F32.of_N M))
          (F32.add (F32.mul (F32.of_N (size_t_sub M 1)) x) F32.one).

(** [pmf(sample_idx) * normalization_constant()] of a cache *)
Definition Le_throughput_FGVc (c : cache) (sample_idx : nat) : float :=
  F32.mul (cache_pmf c sample_idx) (normalization_constant c).

(** the locals [val] (not initialised at its declaration) and [sum_val] *)
Record mis_acc := mk_mis_acc { acc_val : option float; acc_sum : float }.

(** the body of the loop of lines 310-326 *)
Definition mis_loop_body (r : renderer) (ztm1 : camera_path_vertex)
    (cache_idx sample_idx i : nat) (a : mis_acc) : outcome mis_acc :=
  c ← at_index (cv_neighbor_cache ztm1) i;
  let Q := cache_Q c in
  let w := Le_throughput_FGVc c sample_idx in
  if F32.ltb F32.zero w then
    let tmp_val := mis_term (m_M r) (F32.max mis_threshold (F32.div Q w)) in
    Ok {| acc_val := if decide (cache_idx = i) then Some tmp_val else acc_val a;
          acc_sum := F32.add (acc_sum a) tmp_val |}
  else Ok a.

(** lines 307-338: the resampling-aware weight; [lp] and [cp] are the two
    [mis_partial_weight] values *)
Definition resampling_mis_weight (r : renderer) (ztm1 : camera_path_vertex)
    (cache_idx sample_idx : nat) (lp cp : float) : outcome float :=
  a ← for_each (seq 0 Nc) (mis_loop_body r ztm1 cache_idx sample_idx)
        {| acc_val := None; acc_sum := F32.zero |};
  let tmp_val := mis_term (m_M r) (m_Qp r) in
  let val := if decide (cache_idx = Nc) then Some tmp_val else acc_val a in
  let sum_val := F32.add (acc_sum a) tmp_val in
  match val with
  | Some v => Ok (F32.div v (F32.add (F32.add lp sum_val) cp))
  | None => Fault Uninitialised
  end.

(** a call of [neighbor_cache(cache_idx).sample(rng)] in iteration [t] *)
Inductive st_event := EvSample (t cache_idx : nat).

(** the accumulated radiance [L], the generator, and the calls made *)
Record st_state := mk_st_state {
  st_L : col3;
  st_rng : rng;
  st_log : list st_event;
}.

(** lines 267-280: draw the candidate, from the chosen cache or, for the
    virtual slot, uniformly from [m_candidates] *)
Definition resample (r : renderer) (ztm1 : camera_path_vertex)
    (t cache_idx : nat) (g : rng)
    : outcome (nat * candidate * float * rng * list st_event) :=
  if decide (cache_idx ≠ Nc) then
    c ← at_index (cv_neighbor_cache ztm1) cache_idx;
    let '(smp, g') := cache_sample c g in
    Ok (smp_idx smp, smp_elem smp, F32.mul selector_pmf (smp_pmf smp), g',
        [EvSample t cache_idx])
  else
    let size := N.of_nat (length (m_candidates r)) in
    let '(k, g') := generate_uniform_int g 0 (Z.of_N (size_t_sub size 1)) in
    let sample_idx := to_size_t k in
    cand ← at_index (m_candidates r) sample_idx;
    Ok (sample_idx, cand,
        F32.mul selector_pmf (F32.div F32.one (F32.of_N size)), g', []).

(** line 340: the term added to [L] *)
Definition st_contribution (r : renderer) (ysm1 : light_path_vertex)
    (ztm1 : camera_path_vertex) (fyz fzy : col3) (G pmf mis_weight : float)
    : col3 :=
  col3_scale
    (col3_mul (col3_mul (col3_mul (lv_Le_throughput ysm1) fyz) fzy)
              (cv_throughput_We ztm1))
    (F32.mul (F32.div G (F32.mul pmf (F32.of_N (m_M r)))) mis_weight).

(** one iteration of the loop of [renderer::calculate_st] (lines 244-341) *)
Definition calculate_st_body (r : renderer) (sc : scene) (z : camera_path)
    (t : nat) (st : st_state) : outcome st_state :=
  ztm1 ← at_index z (t - 1);
  if cv_is_emissive ztm1 then Ok st else
  let '(u, g1) := generate_uniform_real (st_rng st) in
  let cache_idx := select_cache u in
  let st1 := mk_st_state (st_L st) g1 (st_log st) in
  zero_cache ←
    (if decide (cache_idx ≠ Nc) then
       c ← at_index (cv_neighbor_cache ztm1) cache_idx;
       Ok (F32.eqb (normalization_constant c) F32.zero)
     else Ok false);
  if (zero_cache : bool) then Ok st1 else
  '(sample_idx, cand, pmf, g2, ev) ← resample r ztm1 t cache_idx g1;
  let st2 := mk_st_state (st_L st) g2 (st_log st ++ ev) in
  y ← at_index (m_light_paths r) (cand_path cand);
  let s := cand_s cand in
  ysm1 ← at_index y (s - 1);
  let tmp_yz := vec3_sub (cv_p ztm1) (lv_p ysm1) in
  let dist2 := squared_norm tmp_yz in
  let dist := F32.sqrt dist2 in
  let yz := make_direction (vec3_div tmp_yz dist) (lv_n ysm1) in
  if is_invalid yz || in_lower_hemisphere yz then Ok st2 else
  let zy := make_direction (direction_neg yz) (cv_n ztm1) in
  if is_invalid zy || in_lower_hemisphere zy then Ok st2 else
  if scene_intersect sc (lv_p ysm1) yz dist then Ok st2 else
  let fyz := brdf_f (lv_brdf ysm1) yz in
  let fzy := brdf_f (cv_brdf ztm1) zy in
  let G := F32.div (F32.mul (abs_cos yz) (abs_cos zy)) dist2 in
  let lp := light_mis_partial_weight y s z t yz zy (m_M r) (m_Qp r) in
  let cp := camera_mis_partial_weight sc y s z t yz zy (m_M r) (m_Qp r) in
  mis_weight ← resampling_mis_weight r ztm1 cache_idx sample_idx lp cp;
  Ok (mk_st_state
        (col3_add (st_L st2)
           (st_contribution r ysm1 ztm1 fyz fzy G pmf mis_weight))
        g2 (st_log st2)).

(** [renderer::calculate_st]: [for (t = 2; t <= nE; t++)] *)
Definition calculate_st (r : renderer) (sc : scene) (z : camera_path)
    (g : rng) : outcome st_state :=
  for_each (seq 2 (length z - 1)) (calculate_st_body r sc z)
           (mk_st_state col3_zero g []).

(* ================================================================== *)
(** ** One pixel *)
(* ================================================================== *)

(** [renderer::radiance] (lines 143-156): the colour of strategies
    (s = 0, t >= 2) and (s >= 1, t >= 2), and the scatter buffer after the
    light-tracing splats of this pixel *)
Definition radiance (r : renderer) (x y : nat) (sc : scene) (cam : camera)
    (g : rng) (buf : imagef) : outcome (col3 * imagef) :=
  let '(z, g1) := construct_camera_path sc cam x y g (m_caches r) in
  lpath ← at_index (m_light_paths r) (x + res_x cam * y);
  buf' ← calculate_s1 r sc cam lpath z buf;
  c0t ← calculate_0t r sc lpath z;
  st ← calculate_st r sc z g1;
  Ok (col3_add c0t (st_L st), buf').

(* ================================================================== *)
(** ** One frame *)
(* ================================================================== *)

(** lines 36-73: every vertex from index 1 of every probe path becomes a
    cache point; the first frame builds the probe paths without caches *)
Definition generate_caches (r : renderer) (sc : scene) (cam : camera)
    (sch : schedule) (first : bool) : list cache :=
  let cam' := camera_for_gen_caches cam in
  let probe '(x, y) :=
    fst (if first
         then construct_camera_path_first sc cam' x y (probe_rng sch x y)
         else construct_camera_path sc cam' x y (probe_rng sch x y)
                (m_caches r)) in
  kd_tree_build
    (z ← probe <$> grid (res_x cam') (res_y cam');
     (fun v => make_cache v first) <$> drop 1 z).

(** lines 77-82: [m_light_paths] is resized to [w * h] elements and
    [construct] is called on every one of them; with a [construct] that
    rebuilds its element, the elements [resize] kept do not show *)
Definition generate_light_paths (sc : scene) (sch : schedule)
    (caches : list cache) (n : nat) : list light_path :=
  (fun idx => construct_light_path sc (light_rng sch idx) caches) <$> seq 0 n.

(** lines 86-89: [V += m_light_paths[i].num_vertices()] for [i < M] *)
Definition count_vertices (paths : list light_path) (M : nat) : outcome nat :=
  for_each (seq 0 M)
    (fun i V => p ← at_index paths i; Ok (V + length p)) 0.

(** line 95: [m_candidates[V++] = candidate(m_light_paths[i], j)] *)
Definition put_candidate (i j : nat) (st : list candidate * nat)
    : outcome (list candidate * nat) :=
  cs ← store_at st.1 st.2 (mk_candidate i j);
  Ok (cs, S st.2).

(** lines 92-97 *)
Definition fill_candidates (paths : list light_path) (M : nat)
    (cands : list candidate) : outcome (list candidate * nat) :=
  for_each (seq 0 M)
    (fun i st =>
       p ← at_index paths i;
       for_each (seq 0 (length p)) (put_candidate i) st)
    (cands, 0).

(** lines 85-98: the candidate pool; [resize] keeps the entries of the
    previous frame and appends default-constructed ones, all of which the
    second loop overwrites *)
Definition build_candidates (paths : list light_path) (M : nat)
    (old : list candidate) : outcome (list candidate) :=
  V ← count_vertices paths M;
  st ← fill_candidates paths M (resize V (mk_candidate 0 0) old);
  Ok st.1.

(** lines 120-125: the colour is stored unless the sum of its channels is a
    NaN *)
Definition store_radiance (screen : imagef) (x y : nat) (col : col3)
    : outcome imagef :=
  if negb (isnan (F32.add (F32.add (col_r col) (col_g col)) (col_b col)))
  then pixel_set screen x y col
  else Ok screen.

(** lines 116-126, one pixel: the state is the screen and the scatter
    buffer *)
Definition render_pixel (r : renderer) (sc : scene) (cam : camera)
    (sch : schedule) (p : nat * nat) (st : imagef * imagef)
    : outcome (imagef * imagef) :=
  res ← radiance r p.1 p.2 sc cam (pixel_rng sch p.1 p.2) st.2;
  screen ← store_radiance st.1 p.1 p.2 res.1;
  Ok (screen, res.2).

(** [1 / float(m_ns1)] *)
Definition inv_ns1 (r : renderer) : float :=
  F32.div F32.one (F32.of_nat (m_ns1 r)).

(** lines 132-134 *)
Definition merge_pixel (buf : imagef) (k : float) (p : nat * nat)
    (screen : imagef) : outcome imagef :=
  s ← pixel_get screen p.1 p.2;
  b ← pixel_get buf p.1 p.2;
  pixel_set screen p.1 p.2 (col3_add s (col3_scale b k)).

(** lines 128-136 *)
Definition merge_scatter (r : renderer) (w h : nat) (buf screen : imagef)
    : outcome imagef :=
  for_each (grid w h) (merge_pixel buf (inv_ns1 r)) screen.

(** the members after lines 29-111, before the pixels are evaluated *)
Definition prepare_frame (r : renderer) (sc : scene) (cam : camera)
    (sch : schedule) : outcome renderer :=
  let ite := m_ite r + 1 in
  let w := res_x cam in
  let h := res_y cam in
  let caches := generate_caches r sc cam sch (bool_decide (ite = 1)) in
  let paths := generate_light_paths sc sch caches (w * h) in
  cands ← build_candidates paths (N.to_nat (m_M r)) (m_candidates r);
  let caches' := calc_distribution sc cands (m_M r) <$> caches in
  let sum :=
    F64.add (m_sum r)
            (F64.div (F64.of_nat (length cands)) (F64.of_N (m_M r))) in
  let Qp := F64.to_f32 (F64.div sum (F64.of_nat ite)) in
  buf ← memset_zero (m_buf_s1 r) (w * h);
  Ok {| m_M := m_M r; m_nt := m_nt r; m_ns1 := m_ns1 r;
        m_sum := sum; m_ite := ite; m_Qp := Qp;
        m_buf_s1 := buf;
        m_locks := m_locks r;
        m_light_paths := paths;
        m_candidates := cands;
        m_caches := caches' |}.

(** the renderer with its scatter buffer replaced *)
Definition with_buf (r : renderer) (buf : imagef) : renderer :=
  {| m_M := m_M r; m_nt := m_nt r; m_ns1 := m_ns1 r;
     m_sum := m_sum r; m_ite := m_ite r; m_Qp := m_Qp r;
     m_buf_s1 := buf;
     m_locks := m_locks r;
     m_light_paths := m_light_paths r;
     m_candidates := m_candidates r;
     m_caches := m_caches r |}.

(** lines 116-126: all pixels; the parallel loop is run in grid order *)
Definition render_pixels (r : renderer) (sc : scene) (cam : camera)
    (sch : schedule) : outcome (imagef * imagef) :=
  for_each (grid (res_x cam) (res_y cam)) (render_pixel r sc cam sch)
           (imagef_new (res_x cam) (res_y cam), m_buf_s1 r).

(** [renderer::render] (lines 27-138): the image and the renderer after the
    frame *)
Definition render (r : renderer) (sc : scene) (cam : camera) (sch : schedule)
    : outcome (imagef * renderer) :=
  r1 ← prepare_frame r sc cam sch;
  st ← render_pixels r1 sc cam sch;
  screen ← merge_scatter r1 (res_x cam) (res_y cam) st.2 st.1;
  Ok (screen, with_buf r1 st.2).

End Model.

(* ================================================================== *)
(** ** The resampling-aware weight as the specification words it *)
(* ================================================================== *)

Section SpecWeight.
Context `{C : Collaborators}.

(** the product [pmf(sample_idx) * normalization_constant()] of a cache is
    positive *)
Definition spec_has_term (c : cache) (sample_idx : nat) : bool :=
  F32.ltb F32.zero (F32.mul (cache_pmf c sample_idx) (normalization_constant c)).

(** [(1/(Nc+1)) * M / ((M-1) * max(mis_threshold, Q_i / weight_i) + 1)] *)
Definition spec_term (M : N) (c : cache) (sample_idx : nat) : float :=
  F32.div
    (F32.mul (F32.div F32.one (F32.of_nat (Nc + 1))) (F32.of_N M))
    (F32.add
       (F32.mul (F32.of_N (size_t_sub M 1))
          (F32.max mis_threshold
             (F32.div (cache_Q c)
                (F32.mul (cache_pmf c sample_idx) (normalization_constant c)))))
       F32.one).

(** the virtual slot's [(1/(Nc+1)) * M / ((M-1) * Qp + 1)] *)
Definition spec_virtual_term (M : N) (Qp : float) : float :=
  F32.div
    (F32.mul (F32.div F32.one (F32.of_nat (Nc + 1))) (F32.of_N M))
    (F32.add (F32.mul (F32.of_N (size_t_sub M 1)) Qp) F32.one).

(** [sum_val]: the terms of the real neighbour caches that have one, added
    up in the order of the caches, then the virtual slot's term *)
Definition spec_sum_val (M : N) (Qp : float) (caches : list cache)
    (sample_idx : nat) : float :=
  F32.add
    (fold_left F32.add
       ((fun c => spec_term M c sample_idx) <$>
        filter (fun c => spec_has_term c sample_idx = true) (take Nc caches))
       F32.zero)
    (spec_virtual_term M Qp).

(** [val]: the term of the selector that was chosen, when it has one *)
Definition spec_val (M : N) (Qp : float) (caches : list cache)
    (cache_idx sample_idx : nat) : option float :=
  if decide (cache_idx = Nc) then Some (spec_virtual_term M Qp)
  else
    match caches !! cache_idx with
    | Some c =>
      if spec_has_term c sample_idx then Some (spec_term M c sample_idx)
      else None
    | None => None
    end.

(** the candidate pool in sub-path-then-vertex order: for every one of the
    first [M] sub-paths, in order, one candidate per vertex, in order *)
Definition spec_pool (paths : list light_path) (M : nat) : list candidate :=
  mjoin (imap (fun i p => mk_candidate i <$> seq 0 (length p)) (take M paths)).

(** candidate [(i, j)] comes before [(i', j')] *)
Definition cand_before (c c' : candidate) : Prop :=
  cand_path c < cand_path c' \/
  (cand_path c = cand_path c' /\ cand_vertex c < cand_vertex c').

End SpecWeight.

(* ================================================================== *)
(** ** Vocabulary for the properties of the remaining code *)
(* ================================================================== *)

Section Vocabulary.
Context `{C : Collaborators}.

(** the iteration [t] and the cache index of a recorded call *)
Definition ev_t (e : st_event) : nat := match e with EvSample t _ => t end.
Definition ev_cache (e : st_event) : nat := match e with EvSample _ i => i end.

(** the renderer with its candidate pool replaced: what an earlier frame
    may have left in [m_candidates] *)
Definition with_candidates (r : renderer) (cands : list candidate) : renderer :=
  {| m_M := m_M r; m_nt := m_nt r; m_ns1 := m_ns1 r;
     m_sum := m_sum r; m_ite := m_ite r; m_Qp := m_Qp r;
     m_buf_s1 := m_buf_s1 r;
     m_locks := m_locks r;
     m_light_paths := m_light_paths r;
     m_candidates := cands;
     m_caches := m_caches r |}.

(** the direction from the lens vertex to a light vertex, as lines 195-198
    of [calculate_s1] form it *)
Definition s1_zy (z0 : camera_path_vertex) (ys : light_path_vertex) : direction :=
  let tmp_zy := vec3_sub (lv_p ys) (cv_p z0) in
  make_direction (vec3_div tmp_zy (F32.sqrt (squared_norm tmp_zy))) (cv_n z0).

(** the tests of lines 199, 204 and 213 all let the connection through: both
    directions are valid and in the upper hemisphere, and the ray is not
    occluded *)
Definition s1_connects (sc : scene) (z0 : camera_path_vertex)
    (ys : light_path_vertex) : bool :=
  let zy := s1_zy z0 ys in
  let yz := make_direction (direction_neg zy) (lv_n ys) in
  negb (is_invalid zy || in_lower_hemisphere zy) &&
  negb (is_invalid yz || in_lower_hemisphere yz) &&
  negb (scene_intersect sc (cv_p z0) zy
          (F32.sqrt (squared_norm (vec3_sub (lv_p ys) (cv_p z0))))).

End Vocabulary.

(* ================================================================== *)
(** ** Vocabulary for the selector scan *)
(* ================================================================== *)

(** the order of the rationals as a test *)
Definition Qltb (a b : Q) : bool := if Qlt_le_dec a b then true else false.

(** the number a finite [float] stands for, [+-m 2^e]; 0 for a zero, and,
    for want of a number, for an infinity and a NaN *)
Definition float_value (x : float) : Q :=
  match x with
  | S754_finite s m e =>
    (inject_Z (if s then Z.neg m else Z.pos m) * Qpower (2 # 1) e)%Q
  | _ => 0%Q
  end.

Section SelectorScan.
Context `{C : Collaborators}.

(** the draw as pass [k] of the loop of lines 256-261 finds it: after [k]
    executions of [u -= 1 / float(Nc + 1)] *)
Definition scan_remainder (k : nat) (u : float) : float :=
  Nat.iter k (fun r => F32.sub r selector_pmf) u.

(** the scan of the draw [u] involves no rounding: in each of the [Nc]
    passes the comparison of line 257 is the comparison of the numbers the
    two floats stand for, and the subtraction of line 260 yields their
    difference *)
Definition scan_is_exact (u : float) : Prop :=
  forall k, k < Nc ->
    F32.ltb (scan_remainder k u) selector_pmf =
      Qltb (float_value (scan_remainder k u)) (float_value selector_pmf) /\
    (float_value (scan_remainder (S k) u) ==
       float_value (scan_remainder k u) - float_value selector_pmf)%Q.

End SelectorScan.

(* ================================================================== *)
(** ** Successive frames *)
(* ================================================================== *)

Section Frames.
Context `{C : Collaborators}.

(** [render] called once per entry, each call with its scene, camera and
    worker generators; the renderers after each call are returned, the
    latest first *)
Fixpoint render_frames (r : renderer)
    (calls : list (scene * camera * schedule)) : outcome (list renderer) :=
  match calls with
  | [] => Ok []
  | (sc, cam, sch) :: calls' =>
    res ← render r sc cam sch;
    rest ← render_frames res.2 calls';
    Ok (rest ++ [res.2])
  end.

(** the renderer after the calls: the head of the history, or the initial
    renderer when there was no call *)
Definition latest (r0 : renderer) (hist : list renderer) : renderer :=
  hd r0 hist.

(** the per-frame term [m_candidates.size() / double(m_M)] *)
Definition frame_term (r : renderer) : double :=
  F64.div (F64.of_nat (length (m_candidates r))) (F64.of_N (m_M r)).

End Frames.

(* ================================================================== *)
(** ** A small world to run the model in *)
(* ================================================================== *)

Module Toy.

(** A direction is valid when the normal it is built on is [true]; every
    cosine and squared distance is 1; the scene is a flag that says whether
    connections are occluded; the generator is the list of its draws; the
    candidate built with vertex index [j] connects [s = j + 1] light
    vertices. *)
Definition f_one : float := F32.one.
Definition white : col3 := mk_col3 f_one f_one f_one.

#[export] Instance geometry : Geometry := {|
  vec3 := bool;
  direction := bool;
  brdf := col3;
  scene := bool;
  camera := nat * nat;
  rng := list float;
  vec3_sub := fun _ _ => true;
  vec3_div := fun v _ => v;
  squared_norm := fun _ => f_one;
  make_direction := fun _ n => n;
  direction_default := true;
  direction_neg := fun d => d;
  is_invalid := negb;
  in_lower_hemisphere := fun _ => false;
  abs_cos := fun _ => f_one;
  brdf_f := fun b _ => b;
  scene_intersect := fun sc _ _ _ => sc;
  res_x := fst;
  res_y := snd;
  calc_intersection := fun _ _ _ => Some (0, 0);
  camera_We := fun _ _ => f_one;
  generate_uniform_real := fun g =>
    match g with
    | u :: g' => (u, g')
    | [] => (F32.zero, [])
    end;
  generate_uniform_int := fun g lo _ => (lo, g);
  candidate_s := S;
|}.

(** a cache whose distribution is a point mass on candidate (0, 0) *)
Definition point_cache (Q norm : float) : cache :=
  {| cache_Q := Q;
     normalization_constant := norm;
     cache_pmf := fun _ => f_one;
     cache_sample := fun g => (mk_sample 0 (mk_candidate 0 0) f_one, g) |}.

Definition good_cache : cache := point_cache f_one f_one.
Definition empty_cache : cache := point_cache F32.zero F32.zero.

Definition lens : camera_path_vertex :=
  {| cv_p := true; cv_n := true; cv_is_emissive := false;
     cv_Le := col3_zero; cv_wi := true; cv_wo := true; cv_brdf := white;
     cv_throughput_We := white; cv_pdf_fwd := f_one;
     cv_neighbor_cache := [] |}.

(** a diffuse surface point seen from the lens, next to the cache [c] *)
Definition surface (c : cache) : camera_path_vertex :=
  {| cv_p := true; cv_n := true; cv_is_emissive := false;
     cv_Le := col3_zero; cv_wi := true; cv_wo := true; cv_brdf := white;
     cv_throughput_We := white; cv_pdf_fwd := f_one;
     cv_neighbor_cache := [c] |}.

Definition light_vertex : light_path_vertex :=
  {| lv_p := true; lv_n := true; lv_brdf := white;
     lv_Le_throughput := white |}.

(** every eye sub-path is [z], every light sub-path is [l]; one nearest
    cache per vertex *)
Definition world (z : camera_path) (l : light_path) : Collaborators := {|
  Nc := 1;
  mis_threshold := F32.div F32.one (F32.of_Z 1000);
  camera_for_gen_caches := fun _ => (1, 1);
  construct_camera_path_first := fun _ _ _ _ g => (z, g);
  construct_camera_path := fun _ _ _ _ g _ => (z, g);
  make_cache := fun _ _ => good_cache;
  kd_tree_build := fun cs => cs;
  construct_light_path := fun _ _ _ => l;
  calc_distribution := fun _ _ _ c => c;
  light_mis_partial_weight := fun _ _ _ _ _ _ _ _ => f_one;
  camera_mis_partial_weight := fun _ _ _ _ _ _ _ _ _ => f_one;
|}.

(** the world [world z l] with five nearest caches per vertex *)
Definition six_slots (z : camera_path) (l : light_path) : Collaborators := {|
  Nc := 5;
  mis_threshold := F32.div F32.one (F32.of_Z 1000);
  camera_for_gen_caches := fun _ => (1, 1);
  construct_camera_path_first := fun _ _ _ _ g => (z, g);
  construct_camera_path := fun _ _ _ _ g _ => (z, g);
  make_cache := fun _ _ => good_cache;
  kd_tree_build := fun cs => cs;
  construct_light_path := fun _ _ _ => l;
  calc_distribution := fun _ _ _ c => c;
  light_mis_partial_weight := fun _ _ _ _ _ _ _ _ => f_one;
  camera_mis_partial_weight := fun _ _ _ _ _ _ _ _ _ => f_one;
|}.

Definition half : float := F32.div F32.one (F32.of_Z 2).
Definition quarter : float := F32.div F32.one (F32.of_Z 4).
Definition three_quarters : float := F32.div (F32.of_Z 3) (F32.of_Z 4).

(** every worker's generator yields [u] first *)
Definition draws (u : float) : schedule :=
  {| probe_rng := fun _ _ => [u];
     light_rng := fun _ => [u];
     pixel_rng := fun _ _ => [u] |}.

(** one light, one surface, one cache with a positive normalization *)
Definition lit : Collaborators := world [lens; surface good_cache] [light_vertex].

(** the same surface next to a cache whose normalization constant is 0 *)
Definition starved : Collaborators :=
  world [lens; surface empty_cache] [light_vertex].

(** a light vertex whose accumulated throughput has overflowed *)
Definition glare_vertex : light_path_vertex :=
  {| lv_p := true; lv_n := true; lv_brdf := white;
     lv_Le_throughput := mk_col3 pos_inf pos_inf pos_inf |}.

(** the lit scene with that light vertex *)
Definition glare : Collaborators :=
  world [lens; surface good_cache] [glare_vertex].

(** a scene without light sources: every light sub-path has no vertex *)
Definition dark : Collaborators := world [lens; surface empty_cache] [].

Definition cam1 : camera := (1, 1).
Definition cam2 : camera := (2, 1).

(** the renderer built for a camera with [M] pre-sampled sub-paths *)
Definition fresh (cam : camera) (M : N) : renderer :=
  match renderer_new cam M 1 F32.zero with
  | Constructed r => r
  | Rejected =>
    {| m_M := M; m_nt := 1; m_ns1 := 0; m_sum := F64.zero; m_ite := 0;
       m_Qp := F32.zero; m_buf_s1 := imagef_new 0 0; m_locks := 0;
       m_light_paths := [];
       m_candidates := []; m_caches := [] |}
  end.

(** the renderer of world [C] once the first frame is prepared: one light
    sub-path, one candidate *)
Definition ready (C : Collaborators) : renderer :=
  match @prepare_frame _ C (fresh cam1 1) false cam1 (draws quarter) with
  | Ok r => r
  | Fault _ => fresh cam1 1
  end.

(** an eye vertex on an emitter of unit radiance *)
Definition emitter : camera_path_vertex :=
  {| cv_p := true; cv_n := true; cv_is_emissive := true;
     cv_Le := white; cv_wi := true; cv_wo := true; cv_brdf := white;
     cv_throughput_We := white; cv_pdf_fwd := f_one;
     cv_neighbor_cache := [good_cache] |}.

(** a cache whose normalization constant is a NaN *)
Definition nan_cache : cache := point_cache f_one S754_nan.

(** a generator that yields [u], and one with no draw left *)
Definition gen (u : float) : rng := (cons u nil : list float).
Definition spent : rng := (nil : list float).

(** the state in which [calculate_st] starts on a generator that yields [u] *)
Definition start (u : float) : st_state := mk_st_state col3_zero (gen u) [].

End Toy.
(** *** Rounding never manufactures a NaN *)

Section RoundingNoNaN.
Variables prec emax : Z.

Lemma shr_1_nonneg mrs : (0 <= shr_m mrs)%Z -> (0 <= shr_m (shr_1 mrs))%Z.
  Proof.
    destruct mrs as [m r s]; simpl.
    destruct m as [|[p|p|]|[p|p|]]; simpl; intros H; lia.
  Qed.

Lemma iter_shr_1_nonneg p : forall mrs,
    (0 <= shr_m mrs)%Z -> (0 <= shr_m (SpecFloat.iter_pos shr_1 p mrs))%Z.
  Proof.
    induction p as [p IH|p IH|]; intros mrs H; simpl.
    - apply IH, IH, shr_1_nonneg, H.
    - apply IH, IH, H.
    - apply shr_1_nonneg, H.
  Qed.

Lemma shr_fexp_nonneg m e l :
    (0 <= m)%Z -> (0 <= shr_m (fst (shr_fexp prec emax m e l)))%Z.
  Proof.
    intros H. unfold shr_fexp, shr.
    assert (H0 : (0 <= shr_m (shr_record_of_loc m l))%Z).
    { destruct l as [|[]]; simpl; exact H. }
    destruct (fexp prec emax (Zdigits2 m + e) - e)%Z; simpl; auto.
    apply iter_shr_1_nonneg, H0.
  Qed.

Lemma round_nearest_even_nonneg m l :
    (0 <= m)%Z -> (0 <= round_nearest_even m l)%Z.
  Proof.
    intros H. destruct l as [|[]]; simpl; try lia.
    destruct (Z.even m); lia.
  Qed.

Lemma binary_round_aux_not_nan s m e l :
    (0 <= m)%Z -> isnan (binary_round_aux prec emax s m e l) = false.
  Proof.
    intros H. unfold binary_round_aux.
    pose proof (shr_fexp_nonneg m e l H) as H1.
    destruct (shr_fexp prec emax m e l) as [mrs' e'] eqn:E1. simpl in H1.
    pose proof (shr_fexp_nonneg _ e' loc_Exact
                  (round_nearest_even_nonneg _ (loc_of_shr_record mrs') H1)) as H2.
    destruct (shr_fexp prec emax _ e' loc_Exact) as [mrs'' e''] eqn:E2.
    simpl in H2.
    destruct (shr_m mrs'') as [|q|q]; simpl.
    - reflexivity.
    - destruct (e'' <=? emax - prec)%Z; reflexivity.
    - exfalso; lia.
  Qed.

Lemma binary_normalize_not_nan m e sz :
    isnan (binary_normalize prec emax m e sz) = false.
  Proof.
    destruct m as [|p|p]; simpl; try reflexivity;
      unfold binary_round;
      destruct (shl_align _ _ _) as [mz ez];
      apply binary_round_aux_not_nan; lia.
  Qed.

  (** Rounding keeps the sign it is given. *)
Lemma binary_round_aux_sign m e l :
  sign_clear (binary_round_aux prec emax false m e l) = true.
Proof.
  unfold binary_round_aux.
  destruct (shr_fexp prec emax m e l) as [mrs' e'].
  destruct (shr_fexp prec emax _ e' loc_Exact) as [mrs'' e''].
  destruct (shr_m mrs''); [done| |done].
  by destruct (e'' <=? emax - prec)%Z.
Qed.

Lemma binary_normalize_sign m e :
  (0 <= m)%Z -> sign_clear (binary_normalize prec emax m e false) = true.
Proof.
  destruct m as [|p|p]; intros H; [done| |lia]. simpl.
  unfold binary_round. destruct (shl_align _ _ _) as [mz ez].
  apply binary_round_aux_sign.
Qed.

(** The quotient of two numbers that are not negative is not negative. *)
Lemma SFdiv_sign x y :
  sign_clear x = true -> sign_clear y = true ->
  sign_clear (SFdiv prec emax x y) = true.
Proof.
  destruct x as [[]|[]| |[] mx ex], y as [[]|[]| |[] my ey]; simpl;
    try done.
  intros _ _. destruct (SFdiv_core_binary _ _ _ _ _ _) as [[mz ez] lz].
  apply binary_round_aux_sign.
Qed.

Lemma sign_clear_not_negative x :
  sign_clear x = true -> SFltb x (S754_zero false) = false.
Proof. by destruct x as [[]|[]| |[] mx ex]. Qed.

(** The sum of two numbers is a NaN exactly when one of them is, or when
      they are infinities of opposite sign. *)
Lemma SFadd_isnan x y :
    isnan (SFadd prec emax x y) =
    isnan x || isnan y ||
    match x, y with
    | S754_infinity sx, S754_infinity sy => xorb sx sy
    | _, _ => false
    end.
  Proof.
    destruct x as [sx|sx| |sx mx ex], y as [sy|sy| |sy my ey];
      try reflexivity;
      try (destruct sx, sy; reflexivity).
    simpl. rewrite binary_normalize_not_nan. reflexivity.
  Qed.

Lemma SFadd_finite_not_nan x y :
    isfinite x = true -> isfinite y = true ->
    isnan (SFadd prec emax x y) = false.
  Proof.
    intros Hx Hy. rewrite SFadd_isnan.
    destruct x, y; simpl in *; congruence.
  Qed.

  (** A non-finite summand makes a non-finite sum. *)
Lemma SFadd_nonfinite_r x y :
    isfinite y = false -> isfinite (SFadd prec emax x y) = false.
  Proof.
    destruct x as [sx|sx| |sx mx ex], y as [sy|sy| |sy my ey];
      simpl; try congruence; try reflexivity;
      destruct sx, sy; reflexivity.
  Qed.

Lemma SFadd_nonfinite_l x y :
    isfinite x = false -> isfinite (SFadd prec emax x y) = false.
  Proof.
    destruct x as [sx|sx| |sx mx ex], y as [sy|sy| |sy my ey];
      simpl; try congruence; try reflexivity;
      destruct sx, sy; reflexivity.
  Qed.

  (** A non-finite factor makes a non-finite product. *)
Lemma SFmul_nonfinite_l x y :
    isfinite x = false -> isfinite (SFmul prec emax x y) = false.
  Proof.
    destruct x as [sx|sx| |sx mx ex], y as [sy|sy| |sy my ey];
      simpl; congruence.
  Qed.
End RoundingNoNaN.


(* ================================================================== *)
(** ** Reasoning about outcomes and loops *)
(* ================================================================== *)

Lemma bind_Ok {A B} (c : outcome A) (k : A -> outcome B) (b : B) :
  c ≫= k = Ok b <-> exists a, c = Ok a /\ k a = Ok b.
Proof.
  destruct c as [a|f]; simpl; split.
  - intros H. by exists a.
  - by intros (a' & [= <-] & H).
  - done.
  - by intros (a' & [=] & _).
Qed.

Lemma at_index_Ok {A} (v : list A) (i : nat) (a : A) :
  at_index v i = Ok a <-> v !! i = Some a.
Proof.
  unfold at_index. destruct (v !! i); split; intros H; by simplify_eq.
Qed.

Lemma at_index_Fault {A} (v : list A) (i : nat) :
  length v <= i -> at_index v i = Fault OutOfBounds.
Proof.
  intros H. unfold at_index. by rewrite lookup_ge_None_2.
Qed.

Lemma store_at_Ok {A} (v : list A) (i : nat) (a : A) (v' : list A) :
  store_at v i a = Ok v' <-> i < length v /\ v' = <[i:=a]> v.
Proof.
  unfold store_at. destruct (decide (i < length v)); split.
  - by intros [= <-].
  - by intros [_ ->].
  - done.
  - intros [? _]. lia.
Qed.

Lemma for_each_app {A S} (l1 l2 : list A) (body : A -> S -> outcome S) s :
  for_each (l1 ++ l2) body s = for_each l1 body s ≫= for_each l2 body.
Proof.
  revert s. induction l1 as [|a l1 IH]; intros s; simpl; [done|].
  destruct (body a s) as [s'|f]; simpl; [apply IH | done].
Qed.

(** a property kept by every iteration holds when the loop is left *)
Lemma for_each_invariant {A S} (P : S -> Prop) (l : list A)
    (body : A -> S -> outcome S) :
  (forall a s s', a ∈ l -> P s -> body a s = Ok s' -> P s') ->
  forall s s', P s -> for_each l body s = Ok s' -> P s'.
Proof.
  induction l as [|a l IH]; intros Hbody s s' Hs H; simpl in H.
  - by injection H as <-.
  - apply bind_Ok in H as (s1 & H1 & H2).
    apply (IH (fun b t t' Hb => Hbody b t t' (list_elem_of_further _ _ _ Hb))
              s1 s'); [|done].
    eapply Hbody; [apply list_elem_of_here|done..].
Qed.

(* ================================================================== *)
(** ** What a frame does to the renderer *)
(* ================================================================== *)

Section FrameState.
Context `{C : Collaborators}.

Lemma render_Ok r sc cam sch img r' :
  render r sc cam sch = Ok (img, r') <->
  exists r1 screen buf,
    prepare_frame r sc cam sch = Ok r1 /\
    render_pixels r1 sc cam sch = Ok (screen, buf) /\
    merge_scatter r1 (res_x cam) (res_y cam) buf screen = Ok img /\
    r' = with_buf r1 buf.
Proof.
  unfold render. split.
  - intros H. apply bind_Ok in H as (r1 & H1 & H).
    apply bind_Ok in H as ([screen buf] & H2 & H).
    apply bind_Ok in H as (img' & H3 & H). injection H as <- <-.
    by exists r1, screen, buf.
  - intros (r1 & screen & buf & -> & H2 & H3 & ->). simpl.
    rewrite H2. simpl. by rewrite H3.
Qed.

(** lines 29 and 85-111 *)
Lemma prepare_frame_Ok r sc cam sch r1 :
  prepare_frame r sc cam sch = Ok r1 ->
  m_M r1 = m_M r /\ m_nt r1 = m_nt r /\ m_ns1 r1 = m_ns1 r /\
  m_ite r1 = m_ite r + 1 /\
  m_sum r1 =
    F64.add (m_sum r)
      (F64.div (F64.of_nat (length (m_candidates r1))) (F64.of_N (m_M r))) /\
  m_Qp r1 = F64.to_f32 (F64.div (m_sum r1) (F64.of_nat (m_ite r1))) /\
  m_light_paths r1 =
    generate_light_paths sc sch
      (generate_caches r sc cam sch (bool_decide (m_ite r + 1 = 1)))
      (res_x cam * res_y cam) /\
  build_candidates (m_light_paths r1) (N.to_nat (m_M r)) (m_candidates r) =
    Ok (m_candidates r1) /\
  memset_zero (m_buf_s1 r) (res_x cam * res_y cam) = Ok (m_buf_s1 r1).
Proof.
  unfold prepare_frame. intros H.
  apply bind_Ok in H as (cands & Hc & H).
  apply bind_Ok in H as (buf & Hb & H). injection H as <-. simpl.
  repeat split; done.
Qed.

Lemma render_state r sc cam sch img r' :
  render r sc cam sch = Ok (img, r') ->
  m_M r' = m_M r /\ m_ns1 r' = m_ns1 r /\
  m_ite r' = m_ite r + 1 /\
  m_sum r' =
    F64.add (m_sum r)
      (F64.div (F64.of_nat (length (m_candidates r'))) (F64.of_N (m_M r))) /\
  m_Qp r' = F64.to_f32 (F64.div (m_sum r') (F64.of_nat (m_ite r'))).
Proof.
  intros H. apply render_Ok in H as (r1 & screen & buf & H1 & _ & _ & ->).
  apply prepare_frame_Ok in H1 as (? & ? & ? & ? & ? & ? & _). simpl.
  repeat split; done.
Qed.

Lemma latest_snoc (r0 r1 : renderer) (rest : list renderer) :
  latest r0 (rest ++ [r1]) = latest r1 rest.
Proof. by destruct rest. Qed.

End FrameState.

(* ================================================================== *)
(** ** Loops over the pixels of an image *)
(* ================================================================== *)

Lemma pixel_index_inj (w x y x' y' : nat) :
  x < w -> x' < w -> x + w * y = x' + w * y' -> x = x' /\ y = y'.
Proof.
  intros Hx Hx' H.
  destruct (Nat.lt_trichotomy y y') as [Hlt|[->|Hlt]]; [nia|lia|nia].
Qed.

Lemma pixel_index_lt (w h x y : nat) : x < w -> y < h -> x + w * y < w * h.
Proof. nia. Qed.

Lemma grid_elem (w h x y : nat) : (x, y) ∈ grid w h <-> x < w /\ y < h.
Proof.
  unfold grid. rewrite list_elem_of_bind. split.
  - intros (y' & Hx & Hy). apply list_elem_of_fmap in Hx as (x' & [= -> ->] & Hx).
    apply elem_of_seq in Hx, Hy. lia.
  - intros [Hx Hy]. exists y. split.
    + apply list_elem_of_fmap. exists x. split; [done|]. apply elem_of_seq. lia.
    + apply elem_of_seq. lia.
Qed.

Lemma grid_NoDup (w h : nat) : NoDup (grid w h).
Proof.
  unfold grid. apply NoDup_bind.
  - intros y1 y2 [x y] _ _ H1 H2.
    apply list_elem_of_fmap in H1 as (? & [= _ ->] & _).
    apply list_elem_of_fmap in H2 as (? & [= _ ->] & _). done.
  - intros y _. apply NoDup_fmap_2; [|apply NoDup_seq].
    intros x1 x2 [= ->]. done.
  - apply NoDup_seq.
Qed.

Lemma pixel_set_Ok img x y c img' :
  pixel_set img x y c = Ok img' <->
  pixel_index img x y < length (img_data img) /\
  img' = mk_imagef (img_w img) (img_h img)
           (<[pixel_index img x y := c]> (img_data img)).
Proof.
  unfold pixel_set. split.
  - intros H. apply bind_Ok in H as (d & Hd & H).
    apply store_at_Ok in Hd as [? ->]. by injection H as <-.
  - intros [Hlt ->]. unfold store_at.
    destruct (decide (_ < _)); [done|lia].
Qed.

Section PixelLoop.
Context {S : Type} (proj : S -> imagef) (body : nat * nat -> S -> outcome S).
Context (R : nat * nat -> col3 -> col3 -> Prop) (w : nat).

(** every iteration touches the pixel it is run for, and no other *)
Hypothesis body_local : forall p s s',
  p.1 < w -> img_w (proj s) = w -> body p s = Ok s' ->
  img_w (proj s') = w /\
  length (img_data (proj s')) = length (img_data (proj s)) /\
  (forall i, i <> p.1 + w * p.2 ->
     img_data (proj s') !! i = img_data (proj s) !! i) /\
  (forall v, img_data (proj s) !! (p.1 + w * p.2) = Some v ->
     exists v', img_data (proj s') !! (p.1 + w * p.2) = Some v' /\ R p v v').

Lemma pixel_loop (l : list (nat * nat)) :
  NoDup l -> (forall p, p ∈ l -> p.1 < w) ->
  forall s s', img_w (proj s) = w -> for_each l body s = Ok s' ->
  img_w (proj s') = w /\
  length (img_data (proj s')) = length (img_data (proj s)) /\
  (forall i, (forall p, p ∈ l -> i <> p.1 + w * p.2) ->
     img_data (proj s') !! i = img_data (proj s) !! i) /\
  (forall p v, p ∈ l ->
     img_data (proj s) !! (p.1 + w * p.2) = Some v ->
     exists v', img_data (proj s') !! (p.1 + w * p.2) = Some v' /\ R p v v').
Proof.
  induction l as [|q l IH]; intros Hnd Hw s s' Hs H; simpl in H.
  - injection H as <-. repeat split; try done.
    intros p v Hp. by apply elem_of_nil in Hp.
  - apply NoDup_cons in Hnd as [Hq Hnd].
    apply bind_Ok in H as (s1 & H1 & H2).
    assert (Hqw : q.1 < w) by (apply Hw; left).
    destruct (body_local q s s1 Hqw Hs H1) as (Hw1 & Hlen1 & Hoth1 & Hval1).
    destruct (IH Hnd (fun p Hp => Hw p (list_elem_of_further _ _ _ Hp))
                 s1 s' Hw1 H2) as (Hw2 & Hlen2 & Hoth2 & Hval2).
    split; [done|]. split; [congruence|]. split.
    + intros i Hi. rewrite Hoth2, Hoth1; [done|..].
      * apply Hi. left.
      * intros p Hp. apply Hi. by right.
    + intros p v Hp Hv. apply elem_of_cons in Hp as [->|Hp].
      * destruct (Hval1 v Hv) as (v' & Hv' & HR). exists v'. split; [|done].
        rewrite Hoth2; [done|]. intros p Hp Heq.
        destruct p as [px py], q as [qx qy]. simpl in *.
        destruct (pixel_index_inj w qx qy px py) as [-> ->];
          [done| |done|done].
        apply (Hw (px, py)). by right.
      * apply Hval2; [done|]. rewrite Hoth1; [done|].
        intros Heq. destruct p as [px py], q as [qx qy]. simpl in *.
        destruct (pixel_index_inj w px py qx qy) as [-> ->];
          [|done|done|done].
        apply (Hw (px, py)). by right.
Qed.
End PixelLoop.

(* ================================================================== *)
(** ** The image of a frame, pixel by pixel *)
(* ================================================================== *)

Section FrameImage.
Context `{C : Collaborators}.

(** the sum the NaN test of line 121 looks at *)
Local Abbreviation channel_sum col :=
  (F32.add (F32.add (col_r col) (col_g col)) (col_b col)).

Lemma store_radiance_local screen x y col screen' :
  store_radiance screen x y col = Ok screen' ->
  img_w screen' = img_w screen /\
  length (img_data screen') = length (img_data screen) /\
  (forall i, i <> pixel_index screen x y ->
     img_data screen' !! i = img_data screen !! i) /\
  (forall v, img_data screen !! pixel_index screen x y = Some v ->
     img_data screen' !! pixel_index screen x y =
       Some (if isnan (channel_sum col) then v else col)).
Proof.
  unfold store_radiance. destruct (isnan _); simpl.
  - intros [= <-]. done.
  - intros H. apply pixel_set_Ok in H as [Hlt ->]. simpl.
    split; [done|]. split; [by rewrite length_insert|]. split.
    + intros i Hi. by rewrite list_lookup_insert_ne.
    + intros v _. by rewrite list_lookup_insert_eq.
Qed.

(** lines 116-126: after the loop every pixel holds the colour [radiance]
    returned for it, or zero where the NaN test rejected it *)
Lemma render_pixels_value r sc cam sch screen buf :
  render_pixels r sc cam sch = Ok (screen, buf) ->
  img_w screen = res_x cam /\
  length (img_data screen) = res_x cam * res_y cam /\
  forall x y, x < res_x cam -> y < res_y cam ->
    exists col b0 b1,
      radiance r x y sc cam (pixel_rng sch x y) b0 = Ok (col, b1) /\
      pixel_get screen x y =
        Ok (if isnan (channel_sum col) then col3_zero else col).
Proof.
  unfold render_pixels. intros H.
  set (w := res_x cam) in *. set (h := res_y cam) in *.
  pose (R := fun (p : nat * nat) (v v' : col3) =>
    exists col b0 b1,
      radiance r p.1 p.2 sc cam (pixel_rng sch p.1 p.2) b0 = Ok (col, b1) /\
      v' = if isnan (channel_sum col) then v else col).
  destruct (pixel_loop (S := imagef * imagef) fst
              (render_pixel r sc cam sch) R w) with
    (l := grid w h) (s := (imagef_new w h, m_buf_s1 r)) (s' := (screen, buf))
    as (Hw & Hlen & _ & Hval).
  - intros [x y] [s b] [s' b'] Hx Hs Hb. simpl in *.
    unfold render_pixel in Hb. simpl in Hb.
    apply bind_Ok in Hb as ([col b1] & Hrad & Hb).
    apply bind_Ok in Hb as (s1 & Hst & Hb). injection Hb as <- <-.
    simpl in Hst.
    apply store_radiance_local in Hst as (Hw & Hlen & Hoth & Hv).
    unfold pixel_index in *. rewrite Hs in *.
    split; [congruence|]. split; [done|]. split; [done|].
    intros v Hv0. eexists. split; [by apply Hv|].
    by exists col, b, b1.
  - apply grid_NoDup.
  - intros [x y] Hp. by apply grid_elem in Hp as [? _].
  - done.
  - done.
  - simpl in *. split; [done|]. split.
    + by rewrite Hlen, length_replicate.
    + intros x y Hx Hy.
      destruct (Hval (x, y) col3_zero) as (v' & Hv' & col & b0 & b1 & Hr & ->).
      * by apply grid_elem.
      * simpl. apply lookup_replicate_2. by apply pixel_index_lt.
      * exists col, b0, b1. split; [done|].
        unfold pixel_get, pixel_index, at_index. rewrite Hw.
        simpl in Hv'. by rewrite Hv'.
Qed.

(** lines 128-136: every pixel gets its scatter-buffer entry added, scaled *)
Lemma merge_scatter_value r w h buf screen img :
  img_w screen = w -> length (img_data screen) = w * h ->
  merge_scatter r w h buf screen = Ok img ->
  forall x y, x < w -> y < h ->
    exists s b,
      pixel_get screen x y = Ok s /\
      pixel_get buf x y = Ok b /\
      pixel_get img x y = Ok (col3_add s (col3_scale b (inv_ns1 r))).
Proof.
  unfold merge_scatter. intros Hw0 Hlen0 H.
  pose (R := fun (p : nat * nat) (v v' : col3) =>
    exists b, pixel_get buf p.1 p.2 = Ok b /\
              v' = col3_add v (col3_scale b (inv_ns1 r))).
  destruct (pixel_loop (S := imagef) id (merge_pixel buf (inv_ns1 r)) R w) with
    (l := grid w h) (s := screen) (s' := img) as (Hw & Hlen & _ & Hval).
  - intros [x y] s s' Hx Hs Hb. simpl in *.
    unfold merge_pixel in Hb. simpl in Hb.
    apply bind_Ok in Hb as (v0 & Hv0 & Hb).
    apply bind_Ok in Hb as (b & Hbuf & Hb).
    apply pixel_set_Ok in Hb as [Hlt ->]. simpl.
    unfold pixel_get in Hv0. apply at_index_Ok in Hv0.
    unfold pixel_index in *. rewrite Hs in *.
    split; [done|]. split; [by rewrite length_insert|]. split.
    + intros i Hi. by rewrite list_lookup_insert_ne.
    + intros v Hv. rewrite Hv in Hv0. injection Hv0 as <-.
      eexists. split; [by rewrite list_lookup_insert_eq|]. by exists b.
  - apply grid_NoDup.
  - intros [x y] Hp. by apply grid_elem in Hp as [? _].
  - done.
  - done.
  - intros x y Hx Hy. simpl in *.
    destruct (lookup_lt_is_Some_2 (img_data screen) (x + w * y)) as [s Hs].
    { rewrite Hlen0. by apply pixel_index_lt. }
    destruct (Hval (x, y) s) as (v' & Hv' & b & Hb & ->).
    + by apply grid_elem.
    + done.
    + exists s, b. simpl in *.
      unfold pixel_get, pixel_index, at_index. rewrite Hw0, Hw, Hs, Hv'. done.
Qed.

(** [render], pixel by pixel *)
Lemma render_pixel_value r sc cam sch img r' :
  render r sc cam sch = Ok (img, r') ->
  forall x y, x < res_x cam -> y < res_y cam ->
    exists r1 col b0 b1 b,
      prepare_frame r sc cam sch = Ok r1 /\
      radiance r1 x y sc cam (pixel_rng sch x y) b0 = Ok (col, b1) /\
      pixel_get (m_buf_s1 r') x y = Ok b /\
      pixel_get img x y =
        Ok (col3_add (if isnan (channel_sum col) then col3_zero else col)
                     (col3_scale b (F32.div F32.one (F32.of_nat (m_ns1 r))))).
Proof.
  intros H x y Hx Hy.
  apply render_Ok in H as (r1 & screen & buf & H1 & H2 & H3 & ->).
  apply render_pixels_value in H2 as (Hw & Hlen & Hval).
  destruct (Hval x y Hx Hy) as (col & b0 & b1 & Hrad & Hs).
  destruct (merge_scatter_value _ _ _ _ _ _ Hw Hlen H3 x y Hx Hy)
    as (s & b & Hs' & Hb & Himg).
  rewrite Hs in Hs'. injection Hs' as <-.
  exists r1, col, b0, b1, b. split; [done|]. split; [done|]. split; [done|].
  rewrite Himg. unfold inv_ns1.
  apply prepare_frame_Ok in H1 as (_ & _ & -> & _). done.
Qed.

End FrameImage.

Section Radiance.
Context `{C : Collaborators}.

(** [radiance] is the sum of the two direct strategies; the light-tracing
    strategy only writes the scatter buffer *)
Lemma radiance_Ok r x y sc cam g b0 col b1 :
  radiance r x y sc cam g b0 = Ok (col, b1) ->
  exists lpath c0t st,
    let z := (construct_camera_path sc cam x y g (m_caches r)).1 in
    let g1 := (construct_camera_path sc cam x y g (m_caches r)).2 in
    m_light_paths r !! (x + res_x cam * y) = Some lpath /\
    calculate_s1 r sc cam lpath z b0 = Ok b1 /\
    calculate_0t r sc lpath z = Ok c0t /\
    calculate_st r sc z g1 = Ok st /\
    col = col3_add c0t (st_L st).
Proof.
  unfold radiance. destruct (construct_camera_path _ _ _ _ _ _) as [z g1].
  intros H. apply bind_Ok in H as (lpath & Hl & H).
  apply bind_Ok in H as (b' & Hs1 & H).
  apply bind_Ok in H as (c0t & H0t & H).
  apply bind_Ok in H as (st & Hst & H). injection H as <- <-.
  apply at_index_Ok in Hl. by exists lpath, c0t, st.
Qed.

Lemma render_frames_ns1 : forall calls r0 hist,
  render_frames r0 calls = Ok hist ->
  m_ns1 (latest r0 hist) = m_ns1 r0.
Proof.
  induction calls as [|[[sc cam] sch] calls IH]; intros r0 hist H; simpl in H.
  - by injection H as <-.
  - apply bind_Ok in H as ([img r1] & Hr & H).
    apply bind_Ok in H as (rest & Hrest & H). injection H as <-. simpl in *.
    apply render_state in Hr as (_ & Hns & _).
    rewrite latest_snoc, (IH _ _ Hrest). done.
Qed.

End Radiance.

(* ================================================================== *)
(** ** Resampling: the weight and the contribution *)
(* ================================================================== *)

Section ResamplingWeight.
Context `{C : Collaborators}.

(** the loop of lines 310-326 after [n] caches *)
Lemma mis_loop_prefix r ztm1 cache_idx sample_idx n :
  n <= length (cv_neighbor_cache ztm1) ->
  for_each (seq 0 n) (mis_loop_body r ztm1 cache_idx sample_idx)
           {| acc_val := None; acc_sum := F32.zero |} =
  Ok {| acc_val :=
          if decide (cache_idx < n) then
            match cv_neighbor_cache ztm1 !! cache_idx with
            | Some c =>
              if spec_has_term c sample_idx
              then Some (spec_term (m_M r) c sample_idx) else None
            | None => None
            end
          else None;
        acc_sum :=
          fold_left F32.add
            ((fun c => spec_term (m_M r) c sample_idx) <$>
             filter (fun c => spec_has_term c sample_idx = true)
                    (take n (cv_neighbor_cache ztm1)))
            F32.zero |}.
Proof.
  induction n as [|n IH]; intros Hn.
  - done.
  - rewrite seq_S, for_each_app, IH by lia. simpl.
    destruct (lookup_lt_is_Some_2 (cv_neighbor_cache ztm1) n) as [c Hc];
      [lia|].
    unfold mis_loop_body at 1. unfold at_index. rewrite Hc. simpl.
    rewrite (take_S_r _ _ _ Hc), filter_app, fmap_app, fold_left_app.
    rewrite filter_cons, filter_nil.
    change (F32.ltb F32.zero (Le_throughput_FGVc c sample_idx))
      with (spec_has_term c sample_idx).
    destruct (decide (spec_has_term c sample_idx = true)) as [Ht|Ht].
    + rewrite Ht. simpl. f_equal. f_equal.
      destruct (decide (cache_idx = n)) as [->|Hne].
      * rewrite Hc, Ht. by destruct (decide (n < S n)); [|lia].
      * destruct (decide (cache_idx < n)), (decide (cache_idx < S n));
          try done; lia.
    + apply not_true_is_false in Ht. rewrite Ht. simpl. f_equal. f_equal.
      destruct (decide (cache_idx = n)) as [->|Hne].
      * rewrite Hc, Ht.
        destruct (decide (n < n)); [lia|]. by destruct (decide (n < S n)).
      * destruct (decide (cache_idx < n)), (decide (cache_idx < S n));
          try done; lia.
Qed.

(** lines 307-338 against the specification's [val] and [sum_val] *)
Lemma resampling_mis_weight_spec r ztm1 cache_idx sample_idx lp cp :
  Nc <= length (cv_neighbor_cache ztm1) ->
  cache_idx <= Nc ->
  resampling_mis_weight r ztm1 cache_idx sample_idx lp cp =
  match spec_val (m_M r) (m_Qp r) (cv_neighbor_cache ztm1) cache_idx sample_idx
  with
  | Some v =>
    Ok (F32.div v
          (F32.add
             (F32.add lp
                (spec_sum_val (m_M r) (m_Qp r) (cv_neighbor_cache ztm1)
                   sample_idx))
             cp))
  | None => Fault Uninitialised
  end.
Proof.
  intros Hn Hi. unfold resampling_mis_weight.
  rewrite mis_loop_prefix by done. simpl.
  unfold spec_val, spec_sum_val.
  change (mis_term (m_M r) (m_Qp r)) with (spec_virtual_term (m_M r) (m_Qp r)).
  destruct (decide (cache_idx = Nc)) as [->|Hne]; [done|].
  destruct (decide (cache_idx < Nc)); [|lia].
  destruct (cv_neighbor_cache ztm1 !! cache_idx) as [c|]; [|done].
  by destruct (spec_has_term c sample_idx).
Qed.

Lemma select_scan_le {A} (lt : A -> A -> bool) minus p dflt n : forall i u,
  dflt <= i + n -> select_scan lt minus p dflt n i u <= i + n.
Proof.
  induction n as [|n IH]; intros i u H; simpl; [lia|].
  destruct (lt u p); [lia|]. specialize (IH (S i) (minus u p)). lia.
Qed.

Lemma select_cache_le u : select_cache u <= Nc.
Proof. unfold select_cache. apply (select_scan_le _ _ _ Nc Nc 0). lia. Qed.

(** C1.  In an iteration of [calculate_st] that reaches line 340 -- the
    vertex is not emissive, the chosen cache (if real) has a non-zero
    normalization constant, a candidate is drawn, both directions are valid
    and in the upper hemisphere, the connection is not occluded -- and in
    which the chosen selector has a term [v] (it is the virtual slot, or a
    real cache whose product [pmf(sample_idx) * normalization_constant()] is
    positive), the weight is [v / (lp + sum_val + cp)]: [sum_val] adds
    [(1/(Nc+1)) M / ((M-1) max(mis_threshold, Q_i / weight_i) + 1)] for every
    one of the [Nc] neighbour caches with a positive product and always the
    virtual slot's [(1/(Nc+1)) M / ((M-1) Qp + 1)], and [lp], [cp] are the
    light and camera partial weights.  The iteration adds
    [Le_throughput * f(yz) * f(zy) * throughput_We * (G / (pmf * M) * weight)]
    to [L]. *)
Theorem resampling_weight_and_contribution
    (r : renderer) (sc : scene) (z : camera_path) (t : nat) (st : st_state)
    (ztm1 : camera_path_vertex) (u : float) (g1 g2 : rng)
    (sample_idx : nat) (cand : candidate) (pmf : float) (ev : list st_event)
    (y : light_path) (ysm1 : light_path_vertex) (v : float) :
  z !! (t - 1) = Some ztm1 ->
  cv_is_emissive ztm1 = false ->
  generate_uniform_real (st_rng st) = (u, g1) ->
  (select_cache u <> Nc ->
   exists c, cv_neighbor_cache ztm1 !! select_cache u = Some c /\
             F32.eqb (normalization_constant c) F32.zero = false) ->
  resample r ztm1 t (select_cache u) g1 = Ok (sample_idx, cand, pmf, g2, ev) ->
  m_light_paths r !! cand_path cand = Some y ->
  y !! (cand_s cand - 1) = Some ysm1 ->
  let tmp_yz := vec3_sub (cv_p ztm1) (lv_p ysm1) in
  let dist2 := squared_norm tmp_yz in
  let dist := F32.sqrt dist2 in
  let yz := make_direction (vec3_div tmp_yz dist) (lv_n ysm1) in
  let zy := make_direction (direction_neg yz) (cv_n ztm1) in
  is_invalid yz || in_lower_hemisphere yz = false ->
  is_invalid zy || in_lower_hemisphere zy = false ->
  scene_intersect sc (lv_p ysm1) yz dist = false ->
  Nc <= length (cv_neighbor_cache ztm1) ->
  spec_val (m_M r) (m_Qp r) (cv_neighbor_cache ztm1) (select_cache u)
           sample_idx = Some v ->
  let G := F32.div (F32.mul (abs_cos yz) (abs_cos zy)) dist2 in
  let lp := light_mis_partial_weight y (cand_s cand) z t yz zy (m_M r) (m_Qp r) in
  let cp :=
    camera_mis_partial_weight sc y (cand_s cand) z t yz zy (m_M r) (m_Qp r) in
  let mis_weight :=
    F32.div v
      (F32.add
         (F32.add lp
            (spec_sum_val (m_M r) (m_Qp r) (cv_neighbor_cache ztm1) sample_idx))
         cp) in
  resampling_mis_weight r ztm1 (select_cache u) sample_idx lp cp = Ok mis_weight /\
  calculate_st_body r sc z t st =
    Ok (mk_st_state
          (col3_add (st_L st)
             (col3_scale
                (col3_mul
                   (col3_mul
                      (col3_mul (lv_Le_throughput ysm1)
                                (brdf_f (lv_brdf ysm1) yz))
                      (brdf_f (cv_brdf ztm1) zy))
                   (cv_throughput_We ztm1))
                (F32.mul (F32.div G (F32.mul pmf (F32.of_N (m_M r))))
                         mis_weight)))
          g2 (st_log st ++ ev)).
Proof.
  intros Hz Hem Hu Hnz Hr Hy Hys tmp_yz dist2 dist yz zy Hyz Hzy Hvis Hn Hv
    G0 lp cp mis_weight.
  assert (Hw : resampling_mis_weight r ztm1 (select_cache u) sample_idx lp cp
               = Ok mis_weight).
  { rewrite resampling_mis_weight_spec by (done || apply select_cache_le).
    by rewrite Hv. }
  split; [done|].
  unfold calculate_st_body.
  apply at_index_Ok in Hz. rewrite Hz. simpl. rewrite Hem, Hu.
  assert (Hskip :
    (if decide (select_cache u ≠ Nc)
     then c ← at_index (cv_neighbor_cache ztm1) (select_cache u);
          Ok (F32.eqb (normalization_constant c) F32.zero)
     else Ok false) = Ok false).
  { destruct (decide (select_cache u ≠ Nc)) as [Hne|]; [|done].
    destruct (Hnz Hne) as (c & Hc & Hc0). apply at_index_Ok in Hc.
    rewrite Hc. simpl. by rewrite Hc0. }
  rewrite Hskip. simpl. rewrite Hr. simpl.
  apply at_index_Ok in Hy. rewrite Hy. simpl.
  apply at_index_Ok in Hys. simpl in Hys. rewrite Hys. simpl.
  fold tmp_yz. fold dist2. fold dist. fold yz. rewrite Hyz.
  fold zy. rewrite Hzy, Hvis.
  fold lp. fold cp. rewrite Hw. simpl. reflexivity.
Qed.

End ResamplingWeight.

(* ================================================================== *)
(** ** The progressive normalization estimate *)
(* ================================================================== *)

Section Progressive.
Context `{C : Collaborators}.

(** the members after a sequence of calls *)
Lemma render_frames_state : forall calls r0 hist,
  render_frames r0 calls = Ok hist ->
  length hist = length calls /\
  m_M (latest r0 hist) = m_M r0 /\
  m_ite (latest r0 hist) = m_ite r0 + length calls /\
  m_sum (latest r0 hist) =
    fold_left F64.add (frame_term <$> reverse hist) (m_sum r0) /\
  (0 < length calls ->
   m_Qp (latest r0 hist) =
     F64.to_f32 (F64.div (m_sum (latest r0 hist))
                         (F64.of_nat (m_ite (latest r0 hist))))).
Proof.
  induction calls as [|[[sc cam] sch] calls IH]; intros r0 hist H; simpl in H.
  - injection H as <-. simpl. repeat split; (lia || done).
  - apply bind_Ok in H as ([img r1] & Hr & H).
    apply bind_Ok in H as (rest & Hrest & H). injection H as <-. simpl in *.
    apply render_state in Hr as (HM & _ & Hite & Hsum & HQp).
    destruct (IH _ _ Hrest) as (Hlen & HM' & Hite' & Hsum' & HQp').
    rewrite latest_snoc, reverse_snoc, length_app. simpl.
    split; [lia|]. split; [congruence|]. split; [lia|].
    split.
    + rewrite Hsum'. f_equal. rewrite Hsum. unfold frame_term. by rewrite HM.
    + intros _. destruct calls as [|c calls].
      * simpl in Hrest. injection Hrest as <-. done.
      * apply HQp'. simpl. lia.
Qed.

(** the term of a frame is a quotient of two counts: never negative *)
Lemma frame_term_not_negative (V : nat) (M : N) :
  SFltb (F64.div (F64.of_nat V) (F64.of_N M)) F64.zero = false.
Proof.
  apply sign_clear_not_negative, SFdiv_sign;
    apply binary_normalize_sign; lia.
Qed.

(** C2.  Every call of [render] adds exactly 1 to [m_ite] and adds
    [m_candidates.size() / double(m_M)], which is never negative, to [m_sum]
    (a [double] addition), and leaves [m_Qp = float(m_sum / m_ite)].  After
    [k] calls [m_ite] has grown by [k] and [m_sum] is the old sum with the
    [k] per-frame terms added in order: neither is reset, and [m_ite] never
    decreases; counted from construction, [m_Qp] after the [k]-th call is
    the sum of the [k] terms divided by [k], their arithmetic mean. *)
Theorem progressive_normalization :
  (forall r sc cam sch img r',
     render r sc cam sch = Ok (img, r') ->
     m_ite r' = m_ite r + 1 /\
     m_sum r' =
       F64.add (m_sum r)
         (F64.div (F64.of_nat (length (m_candidates r')))
                  (F64.of_N (m_M r))) /\
     SFltb (F64.div (F64.of_nat (length (m_candidates r')))
                    (F64.of_N (m_M r))) F64.zero = false /\
     m_Qp r' = F64.to_f32 (F64.div (m_sum r') (F64.of_nat (m_ite r'))) /\
     m_M r' = m_M r) /\
  (forall r0 calls hist,
     render_frames r0 calls = Ok hist ->
     let k := length calls in
     let r := latest r0 hist in
     let terms := frame_term <$> reverse hist in
     length terms = k /\
     m_ite r = m_ite r0 + k /\
     m_ite r0 <= m_ite r /\
     m_sum r = fold_left F64.add terms (m_sum r0) /\
     (0 < k ->
      m_Qp r = F64.to_f32 (F64.div (m_sum r) (F64.of_nat (m_ite r)))) /\
     (m_ite r0 = 0 -> m_sum r0 = F64.zero -> 0 < k ->
      m_Qp r =
        F64.to_f32 (F64.div (fold_left F64.add terms F64.zero)
                            (F64.of_nat k)))).
Proof.
  split.
  - intros r sc cam sch img r' H.
    apply render_state in H as (? & ? & ? & ? & ?).
    split; [done|]. split; [done|].
    split; [apply frame_term_not_negative|]. done.
  - intros r0 calls hist H k r terms.
    destruct (render_frames_state _ _ _ H) as (Hlen & HM & Hite & Hsum & HQp).
    fold k in Hlen, Hite, HQp. fold r in HM, Hite, Hsum, HQp.
    fold terms in Hsum.
    split; [unfold terms; by rewrite length_fmap, length_reverse|].
    split; [done|]. split; [lia|]. split; [done|]. split; [done|].
    intros H0 Hs0 Hk. rewrite (HQp Hk), Hsum, Hite, H0, Hs0. done.
Qed.

End Progressive.

(* ================================================================== *)
(** ** A scene without light sources *)
(* ================================================================== *)

Section NoLights.
Context `{C : Collaborators}.

(** with an empty candidate pool the virtual slot indexes [m_candidates]
    out of range, whatever index the generator returns *)
Lemma virtual_slot_on_empty_pool r sc z t st ztm1 u g1 :
  z !! (t - 1) = Some ztm1 ->
  cv_is_emissive ztm1 = false ->
  generate_uniform_real (st_rng st) = (u, g1) ->
  select_cache u = Nc ->
  m_candidates r = [] ->
  calculate_st_body r sc z t st = Fault OutOfBounds.
Proof.
  intros Hz Hem Hu Hsel Hpool. unfold calculate_st_body.
  apply at_index_Ok in Hz. rewrite Hz. simpl. rewrite Hem, Hu, Hsel.
  destruct (decide (Nc ≠ Nc)); [done|]. simpl.
  unfold resample. destruct (decide (Nc ≠ Nc)); [done|].
  rewrite Hpool. destruct (generate_uniform_int _ _ _) as [k g2]. done.
Qed.

End NoLights.

(** C3 at a scene without lights (every light sub-path has no vertex), a
    1 x 1 camera, [M = 1], an eye sub-path that sees a diffuse surface next
    to one cache with zero normalization: the candidate pool is empty; when
    the selector's draw is 3/4 the virtual slot is chosen and [calculate_st]
    reads [m_candidates] out of range -- the other two strategies add
    nothing and do not fault -- so [render] has undefined behaviour; when the
    draw is 1/4 the real cache is chosen and skipped, and the image is
    zero. *)
Theorem no_lights_virtual_slot_faults :
  let r := Toy.fresh Toy.cam1 1 in
  let z := [Toy.lens; Toy.surface Toy.empty_cache] in
  (exists r1,
     @prepare_frame _ Toy.dark r false Toy.cam1 (Toy.draws Toy.three_quarters)
       = Ok r1 /\
     m_light_paths r1 = [[]] /\ m_candidates r1 = [] /\
     @calculate_s1 _ Toy.dark r1 false Toy.cam1 [] z (m_buf_s1 r1)
       = Ok (m_buf_s1 r1) /\
     @calculate_0t _ Toy.dark r1 false [] z = Ok col3_zero /\
     @calculate_st _ Toy.dark r1 false z (Toy.gen Toy.three_quarters)
       = Fault OutOfBounds) /\
  @select_cache _ Toy.dark Toy.three_quarters = @Nc _ Toy.dark /\
  @render _ Toy.dark r false Toy.cam1 (Toy.draws Toy.three_quarters)
    = Fault OutOfBounds /\
  exists r',
    @render _ Toy.dark r false Toy.cam1 (Toy.draws Toy.quarter)
      = Ok (imagef_new 1 1, r').
Proof.
  split; [|split; [|split]].
  - eexists. split; [vm_compute; reflexivity|].
    repeat split; vm_compute; reflexivity.
  - vm_compute. reflexivity.
  - vm_compute. reflexivity.
  - eexists. vm_compute. reflexivity.
Qed.

(* ================================================================== *)
(** ** The NaN test on a pixel's colour *)
(* ================================================================== *)

(** the claim at the colour (+inf, 0, 0), which is not finite: it is not
    detected, and the pixel is overwritten with it *)
Lemma infinite_colour_is_stored :
  let col := mk_col3 pos_inf F32.zero F32.zero in
  isfinite (col_r col) = false /\
  store_radiance (imagef_new 1 1) 0 0 col = Ok (mk_imagef 1 1 [col]) /\
  store_radiance (imagef_new 1 1) 0 0 col <> Ok (imagef_new 1 1).
Proof. repeat split. discriminate. Qed.

(** C4 (as the code has it).  The colour returned for a pixel is rejected,
    and the pixel left as it was, exactly when the [float] sum
    [col[0] + col[1] + col[2]] is a NaN.  A colour with a NaN channel is
    always rejected; a colour whose channels are all finite is always
    stored; a colour with an infinite channel is not rejected as such:
    with an infinite first channel and finite other channels it is
    stored. *)
Theorem nan_test_on_colour (screen : imagef) (x y : nat) (col : col3) :
  store_radiance screen x y col =
    (if isnan (F32.add (F32.add (col_r col) (col_g col)) (col_b col))
     then Ok screen else pixel_set screen x y col) /\
  (isnan (col_r col) || isnan (col_g col) || isnan (col_b col) = true ->
   store_radiance screen x y col = Ok screen) /\
  (isfinite (col_r col) && isfinite (col_g col) && isfinite (col_b col) = true ->
   store_radiance screen x y col = pixel_set screen x y col) /\
  (isfinite (col_r col) = false -> isnan (col_r col) = false ->
   isfinite (col_g col) = true -> isfinite (col_b col) = true ->
   store_radiance screen x y col = pixel_set screen x y col).
Proof.
  unfold store_radiance, F32.add.
  split; [by destruct (isnan _)|]. split; [|split].
  - intros H.
    assert (Hr : forall a, SFadd F32.prec F32.emax a S754_nan = S754_nan)
      by (by intros []).
    destruct (col_r col) as [| | |], (col_g col) as [| | |],
      (col_b col) as [| | |]; simpl in H; try done;
      try (rewrite Hr; done); simpl; try (rewrite Hr; done);
      by destruct s, s0.
  - intros H. apply andb_prop in H as [H Hb]. apply andb_prop in H as [Hr Hg].
    rewrite (SFadd_isnan _ _ (SFadd _ _ _ _)), SFadd_finite_not_nan by done.
    destruct (col_b col); simpl in *; try done;
      by destruct (SFadd _ _ _ _).
  - intros Hr Hn Hg Hb.
    destruct (col_r col) as [| s | |]; simpl in *; try done.
    destruct (col_g col); simpl in *; try done;
      destruct (col_b col); simpl in *; done.
Qed.

Lemma nan_test_on_colour_witness :
  store_radiance (imagef_new 1 1) 0 0 (mk_col3 S754_nan F32.zero F32.zero) =
    Ok (imagef_new 1 1) /\
  store_radiance (imagef_new 1 1) 0 0 (mk_col3 F32.one F32.zero F32.zero) =
    pixel_set (imagef_new 1 1) 0 0 (mk_col3 F32.one F32.zero F32.zero) /\
  store_radiance (imagef_new 1 1) 0 0 (mk_col3 neg_inf F32.one F32.zero) =
    pixel_set (imagef_new 1 1) 0 0 (mk_col3 neg_inf F32.one F32.zero).
Proof.
  split; [|split].
  - destruct (nan_test_on_colour (imagef_new 1 1) 0 0
                (mk_col3 S754_nan F32.zero F32.zero)) as (_ & H & _).
    apply H. reflexivity.
  - destruct (nan_test_on_colour (imagef_new 1 1) 0 0
                (mk_col3 F32.one F32.zero F32.zero)) as (_ & _ & H & _).
    apply H. reflexivity.
  - destruct (nan_test_on_colour (imagef_new 1 1) 0 0
                (mk_col3 neg_inf F32.one F32.zero)) as (_ & _ & _ & H).
    apply H; reflexivity.
Defined.

(* ================================================================== *)
(** ** Resampling: caches without mass are skipped *)
(* ================================================================== *)

Section Resampling.
Context `{C : Collaborators}.

(** what a successful [resample] leaves in the log *)
Lemma resample_log r ztm1 t i g sample_idx cand pmf g' ev :
  resample r ztm1 t i g = Ok (sample_idx, cand, pmf, g', ev) ->
  (i = Nc /\ ev = []) \/ (i <> Nc /\ ev = [EvSample t i]).
Proof.
  unfold resample. destruct (decide (i ≠ Nc)) as [Hne|He]; intros H.
  - right. apply bind_Ok in H as (c & _ & H).
    destruct (cache_sample c g). by injection H as <- <- <- <- <-.
  - left. destruct (generate_uniform_int _ _ _) as [k g2].
    apply bind_Ok in H as (cd & _ & H). injection H as <- <- <- <- <-.
    split; [|done]. by destruct (decide (i = Nc)).
Qed.

(** an iteration either leaves the log alone, or appends the one call it
    made, on a cache whose normalization constant is not zero *)
Lemma calculate_st_body_log r sc z t st st' :
  calculate_st_body r sc z t st = Ok st' ->
  st_log st' = st_log st \/
  exists i ztm1 c,
    st_log st' = st_log st ++ [EvSample t i] /\
    z !! (t - 1) = Some ztm1 /\
    cv_neighbor_cache ztm1 !! i = Some c /\
    F32.eqb (normalization_constant c) F32.zero = false.
Proof.
  unfold calculate_st_body. intros H.
  apply bind_Ok in H as (ztm1 & Hz & H). apply at_index_Ok in Hz.
  destruct (cv_is_emissive ztm1); [injection H as <-; by left|].
  destruct (generate_uniform_real (st_rng st)) as [u g1].
  apply bind_Ok in H as (zc & Hzc & H).
  destruct zc; [injection H as <-; by left|].
  apply bind_Ok in H as ([[[[sample_idx cand] pmf] g2] ev] & Hr & H).
  assert (Hlog : st_log st' = st_log st ++ ev).
  { apply bind_Ok in H as (y & _ & H). apply bind_Ok in H as (ysm1 & _ & H).
    repeat (match type of H with
            | (if ?b then _ else _) = _ => destruct b
            end; [by injection H as <-|]).
    apply bind_Ok in H as (w & _ & H). by injection H as <-. }
  rewrite Hlog. apply resample_log in Hr as [[_ ->]|[Hne ->]].
  - left. by rewrite app_nil_r.
  - right. destruct (decide (select_cache u ≠ Nc)) as [_|]; [|done].
    apply bind_Ok in Hzc as (c & Hc & Hzc). apply at_index_Ok in Hc.
    injection Hzc as Hzc. by exists (select_cache u), ztm1, c.
Qed.

(** C5.  In [calculate_st], when the selector draws a real cache whose
    [normalization_constant()] compares equal to zero, the iteration ends at
    the [continue] of line 264: nothing is added to [L], only the selector's
    draw is consumed, and the cache is not sampled.  Hence every call of
    [sample] that [calculate_st] makes is on a cache whose normalization
    constant is not zero. *)
Theorem zero_cache_never_sampled (r : renderer) (sc : scene) (z : camera_path) :
  (forall t st ztm1 u g1 c,
     z !! (t - 1) = Some ztm1 ->
     cv_is_emissive ztm1 = false ->
     generate_uniform_real (st_rng st) = (u, g1) ->
     select_cache u <> Nc ->
     cv_neighbor_cache ztm1 !! select_cache u = Some c ->
     F32.eqb (normalization_constant c) F32.zero = true ->
     calculate_st_body r sc z t st =
       Ok (mk_st_state (st_L st) g1 (st_log st))) /\
  (forall g st,
     calculate_st r sc z g = Ok st ->
     forall t i, EvSample t i ∈ st_log st ->
       exists ztm1 c,
         z !! (t - 1) = Some ztm1 /\
         cv_neighbor_cache ztm1 !! i = Some c /\
         F32.eqb (normalization_constant c) F32.zero = false).
Proof.
  split.
  - intros t st ztm1 u g1 c Hz Hem Hu Hsel Hc Hzero.
    unfold calculate_st_body.
    apply at_index_Ok in Hz. rewrite Hz. simpl. rewrite Hem, Hu.
    destruct (decide (select_cache u ≠ Nc)); [|done].
    apply at_index_Ok in Hc. rewrite Hc. simpl. by rewrite Hzero.
  - intros g st H. unfold calculate_st in H.
    eapply (for_each_invariant
              (fun s => forall t i, EvSample t i ∈ st_log s ->
                 exists ztm1 c,
                   z !! (t - 1) = Some ztm1 /\
                   cv_neighbor_cache ztm1 !! i = Some c /\
                   F32.eqb (normalization_constant c) F32.zero = false));
      [| |exact H].
    + intros t s s' _ IH Hb e i He.
      apply calculate_st_body_log in Hb as [Hb|(j & ztm1 & c & Hb & ?)];
        rewrite Hb in He; [by apply IH|].
      apply elem_of_app in He as [He|He]; [by apply IH|].
      apply list_elem_of_singleton in He. injection He as -> ->.
      by exists ztm1, c.
    + simpl. intros t i Hin. by apply elem_of_nil in Hin.
Qed.

End Resampling.

(* ================================================================== *)
(** ** The candidate pool *)
(* ================================================================== *)

Section CandidatePool.
Context `{C : Collaborators}.

Lemma spec_pool_S (paths : list light_path) (n : nat) (p : light_path) :
  paths !! n = Some p ->
  spec_pool paths (S n) =
  spec_pool paths n ++ (mk_candidate n <$> seq 0 (length p)).
Proof.
  intros Hp. unfold spec_pool.
  unfold light_path in *. apply lookup_lt_Some in Hp as Hlt.
  rewrite (take_S_r _ _ _ Hp), imap_app, join_app. simpl.
  rewrite app_nil_r, length_take_le by lia. by rewrite Nat.add_0_r.
Qed.

Lemma spec_pool_length (paths : list light_path) (n : nat) :
  n <= length paths ->
  length (spec_pool paths n) = sum_list (length <$> take n paths).
Proof.
  induction n as [|n IH]; intros Hn; [done|].
  destruct (lookup_lt_is_Some_2 paths n) as [p Hp]; [lia|].
  rewrite (spec_pool_S _ _ _ Hp), (take_S_r _ _ _ Hp), fmap_app, sum_list_with_app.
  rewrite length_app, length_fmap, length_seq, IH by lia. simpl. lia.
Qed.

(** the first loop counts the vertices of the first [M] sub-paths *)
Lemma count_vertices_Ok (paths : list light_path) (M : nat) :
  M <= length paths ->
  count_vertices paths M = Ok (length (spec_pool paths M)).
Proof.
  unfold count_vertices. induction M as [|M IH]; intros HM; [done|].
  rewrite seq_S, for_each_app, IH by lia. simpl.
  destruct (lookup_lt_is_Some_2 paths M) as [p Hp]; [lia|].
  unfold at_index. rewrite Hp. simpl.
  by rewrite (spec_pool_S _ _ _ Hp), length_app, length_fmap, length_seq.
Qed.

(** the inner loop writes the vertices of sub-path [i] one after the other
    from position [V] *)
Lemma put_candidates_Ok (i k : nat) : forall pre rest : list candidate,
  k <= length rest ->
  for_each (seq 0 k) (put_candidate i) (pre ++ rest, length pre) =
  Ok (pre ++ (mk_candidate i <$> seq 0 k) ++ drop k rest, length pre + k).
Proof.
  induction k as [|k IH]; intros pre rest Hk.
  - simpl. by rewrite drop_0, Nat.add_0_r.
  - rewrite seq_S, for_each_app, IH by lia. simpl.
    unfold put_candidate. simpl.
    destruct (lookup_lt_is_Some_2 rest k) as [x Hx]; [lia|].
    rewrite (drop_S _ _ _ Hx).
    unfold store_at.
    destruct (decide (_ < _)) as [Hlt|Hge].
    + simpl. f_equal. f_equal; [|lia].
      rewrite insert_app_r_alt by lia.
      replace (length pre + k - length pre) with
        (length (mk_candidate i <$> seq 0 k) + 0)
        by (rewrite length_fmap, length_seq; lia).
      rewrite insert_app_r. simpl.
      by rewrite fmap_app, <- !app_assoc.
    + exfalso. apply Hge.
      rewrite !length_app, length_fmap, length_seq. simpl. lia.
Qed.

(** the second loop after [n] sub-paths *)
Lemma fill_candidates_prefix (paths : list light_path) (M : nat)
    (cands : list candidate) (n : nat) :
  n <= M -> M <= length paths ->
  length cands = length (spec_pool paths M) ->
  for_each (seq 0 n)
    (fun i st =>
       p ← at_index paths i;
       for_each (seq 0 (length p)) (put_candidate i) st)
    (cands, 0) =
  Ok (spec_pool paths n ++ drop (length (spec_pool paths n)) cands,
      length (spec_pool paths n)).
Proof.
  intros Hn HM Hlen. induction n as [|n IH].
  - simpl. by rewrite drop_0.
  - rewrite seq_S, for_each_app, IH by lia. simpl.
    destruct (lookup_lt_is_Some_2 paths n) as [p Hp]; [lia|].
    unfold at_index. rewrite Hp. simpl.
    assert (Hle : length (spec_pool paths (S n)) <= length (spec_pool paths M)).
    { rewrite !spec_pool_length by lia.
      replace (take (S n) paths) with (take (S n) (take M paths))
        by (rewrite take_take; f_equal; lia).
      rewrite <- (take_drop (S n) (take M paths)) at 2.
      rewrite fmap_app, sum_list_with_app. lia. }
    rewrite (spec_pool_S _ _ _ Hp) in Hle |- *.
    rewrite length_app, length_fmap, length_seq in Hle |- *.
    rewrite put_candidates_Ok by (rewrite length_drop; lia).
    by rewrite drop_drop, <- app_assoc.
Qed.

Lemma build_candidates_Ok (paths : list light_path) (M : nat)
    (old : list candidate) :
  M <= length paths ->
  build_candidates paths M old = Ok (spec_pool paths M).
Proof.
  intros HM. unfold build_candidates, fill_candidates.
  rewrite count_vertices_Ok by done. simpl.
  rewrite (fill_candidates_prefix paths M _ M); [|lia|done|].
  - simpl. rewrite drop_ge, app_nil_r; [done|]. by rewrite length_resize.
  - by rewrite length_resize.
Qed.

Lemma spec_pool_elem (paths : list light_path) (n : nat) (c : candidate) :
  n <= length paths ->
  c ∈ spec_pool paths n ->
  cand_path c < n /\
  exists p, paths !! cand_path c = Some p /\ cand_vertex c < length p.
Proof.
  induction n as [|n IH]; intros Hn Hc.
  - by apply elem_of_nil in Hc.
  - destruct (lookup_lt_is_Some_2 paths n) as [p Hp]; [lia|].
    rewrite (spec_pool_S _ _ _ Hp) in Hc.
    apply elem_of_app in Hc as [Hc|Hc].
    + destruct (IH ltac:(lia) Hc) as [? ?]. split; [lia|done].
    + apply list_elem_of_fmap in Hc as (j & -> & Hj).
      apply elem_of_seq in Hj. simpl. split; [lia|].
      exists p. split; [done|lia].
Qed.

(** earlier in the pool means earlier in sub-path-then-vertex order *)
Lemma spec_pool_sorted (paths : list light_path) (n : nat) :
  forall (p q : nat) (c c' : candidate),
  n <= length paths ->
  spec_pool paths n !! p = Some c ->
  spec_pool paths n !! q = Some c' ->
  p < q -> cand_before c c'.
Proof.
  induction n as [|n IH]; intros p q c c' Hn Hp Hq Hlt; [done|].
  destruct (lookup_lt_is_Some_2 paths n) as [lp Hlp]; [lia|].
  rewrite (spec_pool_S _ _ _ Hlp) in Hp, Hq.
  apply lookup_app_Some in Hq as [Hq|[Hq1 Hq2]].
  - apply lookup_app_Some in Hp as [Hp|[Hp1 _]].
    + apply (IH p q); [lia|done..].
    + apply lookup_lt_Some in Hq. lia.
  - apply list_lookup_fmap_Some in Hq2 as (j' & -> & Hj').
    apply lookup_seq in Hj' as [-> _].
    apply lookup_app_Some in Hp as [Hp|[Hp1 Hp2]].
    + left. simpl.
      apply (spec_pool_elem paths n c ltac:(lia)).
      by eapply list_elem_of_lookup_2.
    + apply list_lookup_fmap_Some in Hp2 as (j & -> & Hj).
      apply lookup_seq in Hj as [-> _]. right. simpl. lia.
Qed.

(** C6.  The candidate pool of a frame, built from the [width * height]
    light sub-paths of that frame.  For [M <= width * height] -- in
    particular for the maximum [M = width * height] -- no sub-path past the
    end of [m_light_paths] is read (the build does not fault); the pool's size
    is the sum of the vertex counts of the first [M] sub-paths; every
    candidate's sub-path index is below [M] (and its vertex index within that
    sub-path); and candidate [(i, j)] stands before [(i', j')] in the pool
    exactly when [i < i'], or [i = i'] and [j < j'].  This pool is the
    [m_candidates] that [render] goes on with. *)
Theorem candidate_pool_layout (r : renderer) (sc : scene) (cam : camera)
    (sch : schedule) :
  let M := N.to_nat (m_M r) in
  let caches := generate_caches r sc cam sch (bool_decide (m_ite r + 1 = 1)) in
  let paths := generate_light_paths sc sch caches (res_x cam * res_y cam) in
  M <= res_x cam * res_y cam ->
  exists pool,
    build_candidates paths M (m_candidates r) = Ok pool /\
    length paths = res_x cam * res_y cam /\
    pool = spec_pool paths M /\
    length pool = sum_list (length <$> take M paths) /\
    (forall c, c ∈ pool ->
       cand_path c < M /\
       exists p, paths !! cand_path c = Some p /\ cand_vertex c < length p) /\
    (forall p q c c',
       pool !! p = Some c -> pool !! q = Some c' ->
       (p < q <->
        cand_path c < cand_path c' \/
        (cand_path c = cand_path c' /\ cand_vertex c < cand_vertex c'))) /\
    (forall r1, prepare_frame r sc cam sch = Ok r1 ->
       m_light_paths r1 = paths /\ m_candidates r1 = pool).
Proof.
  intros M caches paths HM.
  assert (Hlen : length paths = res_x cam * res_y cam).
  { unfold paths, generate_light_paths. by rewrite length_fmap, length_seq. }
  assert (Hbuild : build_candidates paths M (m_candidates r) =
                   Ok (spec_pool paths M))
    by (apply build_candidates_Ok; lia).
  exists (spec_pool paths M).
  split; [done|]. split; [done|]. split; [done|].
  split; [apply spec_pool_length; lia|].
  split; [intros c; apply spec_pool_elem; lia|].
  split.
  - intros p q c c' Hp Hq. split.
    + apply (spec_pool_sorted paths M p q c c'); [lia|done..].
    + intros Hb. destruct (Nat.lt_trichotomy p q) as [?|[->|Hgt]]; [done|..].
      * rewrite Hp in Hq. injection Hq as <-. unfold cand_before in *. lia.
      * pose proof (spec_pool_sorted paths M q p c' c ltac:(lia) Hq Hp Hgt)
          as H.
        unfold cand_before in *. lia.
  - intros r1 Hprep.
    apply prepare_frame_Ok in Hprep as (_ & _ & _ & _ & _ & _ & Hp & Hc & _).
    fold caches in Hp. fold paths in Hp. rewrite Hp in Hc |- *.
    split; [done|]. fold M in Hc. rewrite Hbuild in Hc. by injection Hc.
Qed.

End CandidatePool.

(* ================================================================== *)
(** ** The returned image *)
(* ================================================================== *)

Section ReturnedImage.
Context `{C : Collaborators}.

(** C7.  For a renderer built for camera [cam0] and used for any number of
    frames, the image a call of [render] returns holds at every pixel
    [(x, y)] the colour [radiance] computed for it -- the sum of the
    strategies (s = 0, t >= 2) and (s >= 1, t >= 2), or zero when the NaN
    test rejected that colour -- plus the pixel's scatter-buffer entry times
    [1 / float(width * height)], width and height being the resolution of
    [cam0]. *)
Theorem returned_image_pixel
    (cam0 : camera) (M nt : N) (junk : float) (r0 : renderer)
    (calls : list (scene * camera * schedule)) (hist : list renderer)
    (sc : scene) (cam : camera) (sch : schedule) (img : imagef)
    (r' : renderer) (x y : nat) :
  renderer_new cam0 M nt junk = Constructed r0 ->
  render_frames r0 calls = Ok hist ->
  render (latest r0 hist) sc cam sch = Ok (img, r') ->
  x < res_x cam -> y < res_y cam ->
  exists r1 lpath c0t st col b0 b,
    let z :=
      (construct_camera_path sc cam x y (pixel_rng sch x y) (m_caches r1)).1 in
    let g1 :=
      (construct_camera_path sc cam x y (pixel_rng sch x y) (m_caches r1)).2 in
    prepare_frame (latest r0 hist) sc cam sch = Ok r1 /\
    m_light_paths r1 !! (x + res_x cam * y) = Some lpath /\
    calculate_0t r1 sc lpath z = Ok c0t /\
    calculate_st r1 sc z g1 = Ok st /\
    col = col3_add c0t (st_L st) /\
    radiance r1 x y sc cam (pixel_rng sch x y) b0 = Ok (col, b) /\
    exists s1,
      pixel_get (m_buf_s1 r') x y = Ok s1 /\
      pixel_get img x y =
        Ok (col3_add
              (if isnan (F32.add (F32.add (col_r col) (col_g col)) (col_b col))
               then col3_zero else col)
              (col3_scale s1
                 (F32.div F32.one (F32.of_nat (res_x cam0 * res_y cam0))))).
Proof.
  intros Hnew Hframes Hrender Hx Hy.
  destruct (render_pixel_value _ _ _ _ _ _ Hrender x y Hx Hy)
    as (r1 & col & b0 & b1 & s1 & Hprep & Hrad & Hbuf & Himg).
  destruct (radiance_Ok _ _ _ _ _ _ _ _ _ Hrad)
    as (lpath & c0t & st & Hl & _ & H0t & Hst & Hcol).
  exists r1, lpath, c0t, st, col, b0, b1. simpl.
  split; [done|]. split; [done|]. split; [done|]. split; [done|].
  split; [done|]. split; [done|].
  exists s1. split; [done|]. rewrite Himg.
  rewrite (render_frames_ns1 _ _ _ Hframes).
  injection Hnew as <-. done.
Qed.

End ReturnedImage.
From Stdlib Require Import Lqa.

(* ================================================================== *)
(** ** The cache selector: a scan in [float] *)
(* ================================================================== *)

Section ScanExact.
Variable p : Q.
Hypothesis p_pos : (0 < p)%Q.

Local Abbreviation scan := (select_scan Qltb Qminus p).
Local Notation "# k" := (inject_Z (Z.of_nat k)) (at level 5, format "# k").

Lemma Qltb_true a b : Qltb a b = true <-> (a < b)%Q.
Proof.
  unfold Qltb. destruct (Qlt_le_dec a b) as [H|H]; split; intros; try done.
  exfalso. lra.
Qed.

Lemma inject_S k : (#(S k) == #k + 1)%Q.
Proof.
  rewrite Nat2Z.inj_succ. unfold Z.succ. rewrite inject_Z_plus. reflexivity.
Qed.

Lemma inject_nonneg k : (0 <= #k)%Q.
Proof.
  change 0%Q with (inject_Z 0). rewrite <- Zle_Qle. lia.
Qed.

(** the scan answers an index of a bin it tried, or the default *)
Lemma scan_range dflt n : forall i u,
  scan dflt n i u = dflt \/ i <= scan dflt n i u < i + n.
Proof.
  induction n as [|n IH]; intros i u; simpl; [by left|].
  destruct (Qltb u p); [right; lia|].
  destruct (IH (S i) (u - p)%Q) as [->|H]; [by left | right; lia].
Qed.

(** bin [i + k] is chosen exactly for [k p <= u < (k + 1) p] *)
Lemma scan_bin dflt n : forall i u k,
  i + n <= dflt -> (0 <= u)%Q -> k < n ->
  scan dflt n i u = i + k <-> (#k * p <= u /\ u < #(S k) * p)%Q.
Proof.
  induction n as [|n IH]; intros i u k Hd Hu Hk; [lia|]. simpl.
  destruct (Qltb u p) eqn:E.
  - apply Qltb_true in E. destruct k as [|k].
    + split; [intros _|intros _; lia].
      change (#0) with 0%Q. change (#1) with 1%Q. split; lra.
    + pose proof (inject_nonneg k) as Hk0. rewrite inject_S.
      split; [lia|]. intros [H1 _]. exfalso.
      generalize dependent (#k). intros q Hq H1.
      assert (0 <= q * p)%Q by (apply Qmult_le_0_compat; lra). lra.
  - assert (p <= u)%Q as Hp.
    { destruct (Qlt_le_dec u p) as [H|H]; [|done].
      apply Qltb_true in H. congruence. }
    destruct k as [|k].
    + split.
      * intros H. destruct (scan_range dflt n (S i) (u - p)%Q); lia.
      * change (#1) with 1%Q. intros [_ H]. exfalso. lra.
    + replace (i + S k) with (S i + k) by lia.
      rewrite (IH (S i) (u - p)%Q k); [|lia|lra|lia].
      rewrite !inject_S. split; intros [H1 H2]; split; lra.
Qed.

(** the default is kept exactly for [n p <= u] *)
Lemma scan_default dflt n : forall i u,
  i + n <= dflt -> (0 <= u)%Q ->
  scan dflt n i u = dflt <-> (#n * p <= u)%Q.
Proof.
  induction n as [|n IH]; intros i u Hd Hu; simpl.
  - change (#0) with 0%Q. split; [intros _; lra | done].
  - destruct (Qltb u p) eqn:E.
    + apply Qltb_true in E. pose proof (inject_nonneg n) as Hn0.
      rewrite inject_S. split; [lia|]. intros H1. exfalso.
      generalize dependent (#n). intros q Hq H1.
      assert (0 <= q * p)%Q by (apply Qmult_le_0_compat; lra). lra.
    + assert (p <= u)%Q as Hp.
      { destruct (Qlt_le_dec u p) as [H|H]; [|done].
        apply Qltb_true in H. congruence. }
      rewrite (IH (S i) (u - p)%Q); [|lia|lra].
      rewrite inject_S. split; intros H; lra.
Qed.
End ScanExact.

(** the exact scan does not tell equal rationals apart *)
Lemma scan_Qeq (p : Q) dflt n : forall i u u',
  (u == u')%Q ->
  select_scan Qltb Qminus p dflt n i u = select_scan Qltb Qminus p dflt n i u'.
Proof.
  induction n as [|n IH]; intros i u u' Hu; simpl; [done|].
  assert (E : Qltb u p = Qltb u' p).
  { unfold Qltb.
    destruct (Qlt_le_dec u p), (Qlt_le_dec u' p); try done; exfalso; lra. }
  rewrite E. destruct (Qltb u' p); [done|].
  apply IH. rewrite Hu. reflexivity.
Qed.

Section ScanFirst.
Context {A : Type} (lt : A -> A -> bool) (minus : A -> A -> A) (p : A).

Local Abbreviation scan := (select_scan lt minus p).
Local Abbreviation rem := (fun k u => Nat.iter k (fun r => minus r p) u).

Lemma rem_shift k u :
  Nat.iter k (fun r => minus r p) (minus u p) =
  Nat.iter (S k) (fun r => minus r p) u.
Proof. symmetry. apply (Nat.iter_succ_r k (fun r => minus r p) u). Qed.

Lemma select_scan_range dflt n : forall i u,
  scan dflt n i u = dflt \/ i <= scan dflt n i u < i + n.
Proof.
  induction n as [|n IH]; intros i u; simpl; [by left|].
  destruct (lt u p); [right; lia|].
  destruct (IH (S i) (minus u p)) as [->|H]; [by left | right; lia].
Qed.

(** slot [i + k] is answered exactly when pass [k] is the first whose test
    succeeds *)
Lemma select_scan_hit dflt n : forall i u k,
  i + n <= dflt -> k < n ->
  scan dflt n i u = i + k <->
  lt (rem k u) p = true /\ forall j, j < k -> lt (rem j u) p = false.
Proof.
  induction n as [|n IH]; intros i u k Hd Hk; [lia|]. simpl.
  destruct (lt u p) eqn:E.
  - destruct k as [|k].
    + split; [intros _|intros _; lia]. split; [done|]. intros j Hj. lia.
    + split; [lia|]. intros [_ H]. specialize (H 0). simpl in H.
      rewrite E in H. discriminate H. lia.
  - destruct k as [|k].
    + split.
      * intros H. destruct (select_scan_range dflt n (S i) (minus u p)); lia.
      * intros [H _]. simpl in H. congruence.
    + replace (i + S k) with (S i + k) by lia.
      rewrite (IH (S i) (minus u p) k) by lia. cbv beta.
      rewrite rem_shift.
      split; intros [H1 H2]; (split; [done|]).
      * intros [|j] Hj; [done|]. rewrite <- rem_shift. apply H2. lia.
      * intros j Hj. rewrite rem_shift. apply (H2 (S j)). lia.
Qed.

(** the default is answered exactly when the test fails in every pass *)
Lemma select_scan_miss dflt n : forall i u,
  i + n <= dflt ->
  scan dflt n i u = dflt <-> forall j, j < n -> lt (rem j u) p = false.
Proof.
  induction n as [|n IH]; intros i u Hd; simpl.
  - split; [intros _ j Hj; lia | done].
  - destruct (lt u p) eqn:E.
    + split; [lia|]. intros H. specialize (H 0). simpl in H.
      rewrite E in H. discriminate H. lia.
    + rewrite (IH (S i) (minus u p)) by lia. cbv beta. split; intros H.
      * intros [|j] Hj; [done|]. rewrite <- rem_shift. apply H. lia.
      * intros j Hj. rewrite rem_shift. apply (H (S j)). lia.
Qed.

(** a scan whose tests and subtractions are those of the rationals, read
    through [val], is the scan of the rationals *)
Lemma select_scan_exact (val : A -> Q) dflt n : forall i u,
  (forall k, k < n ->
     lt (rem k u) p = Qltb (val (rem k u)) (val p) /\
     (val (rem (S k) u) == val (rem k u) - val p)%Q) ->
  scan dflt n i u = select_scan Qltb Qminus (val p) dflt n i (val u).
Proof.
  induction n as [|n IH]; intros i u H; simpl; [done|].
  destruct (H 0) as [Hlt Hsub]; [lia|]. simpl in Hlt, Hsub.
  rewrite Hlt. destruct (Qltb (val u) (val p)); [done|].
  rewrite (IH (S i) (minus u p)).
  - apply scan_Qeq. exact Hsub.
  - intros k Hk. cbv beta. rewrite !rem_shift. apply (H (S k)). lia.
Qed.

End ScanFirst.

Section Selector.
Context `{C : Collaborators}.

Local Notation "# k" := (inject_Z (Z.of_nat k)) (at level 5, format "# k").


End Selector.



(* ================================================================== *)
(** ** The constructor does not validate [M] *)
(* ================================================================== *)

Section Construction.
Context `{C : Collaborators}.

(** with more sub-paths requested than exist, the counting loop of lines
    87-89 reads one past the end *)
Lemma count_vertices_Fault (paths : list light_path) (M : nat) :
  length paths < M -> count_vertices paths M = Fault OutOfBounds.
Proof.
  intros HM. unfold count_vertices.
  replace M with (length paths + S (M - S (length paths))) by lia.
  rewrite seq_app, for_each_app.
  pose proof (count_vertices_Ok paths (length paths) (le_n _)) as H.
  unfold count_vertices in H. rewrite H. simpl.
  by rewrite at_index_Fault.
Qed.

Lemma prepare_frame_Fault r sc cam sch :
  res_x cam * res_y cam < N.to_nat (m_M r) ->
  prepare_frame r sc cam sch = Fault OutOfBounds.
Proof.
  intros HM. unfold prepare_frame, build_candidates.
  rewrite count_vertices_Fault; [done|].
  unfold generate_light_paths. by rewrite length_fmap, length_seq.
Qed.

(** C9 (as the code has it).  The constructor makes no check of [M]: every
    call returns a renderer that holds [M] as given, with [m_ns1] the pixel
    count of the camera, a zero sum and a zero iteration count.  [M] at most
    [width * height] is an unchecked precondition of [render]: with a larger
    [M] the candidate-pool build reads a light sub-path past the end of
    [m_light_paths]. *)
Theorem constructor_accepts_any_M :
  (forall cam M nt junk,
     exists r,
       renderer_new cam M nt junk = Constructed r /\
       m_M r = M /\ m_nt r = nt /\ m_ns1 r = res_x cam * res_y cam /\
       m_sum r = F64.zero /\ m_ite r = 0) /\
  (forall r sc cam sch,
     res_x cam * res_y cam < N.to_nat (m_M r) ->
     render r sc cam sch = Fault OutOfBounds).
Proof.
  split.
  - intros cam M nt junk. eexists. split; [reflexivity|]. done.
  - intros r sc cam sch HM. unfold render.
    by rewrite prepare_frame_Fault.
Qed.

End Construction.

(** the claim at a 1 x 1 camera with [M = 2]: the constructor does not
    reject *)
Lemma constructor_does_not_reject :
  res_x Toy.cam1 * res_y Toy.cam1 < N.to_nat 2 /\
  @renderer_new _ Toy.cam1 2 1 F32.zero <> Rejected.
Proof. split; [simpl; lia | discriminate]. Qed.

Lemma constructor_accepts_any_M_witness :
  res_x Toy.cam1 * res_y Toy.cam1 < N.to_nat (m_M (Toy.fresh Toy.cam1 2)) /\
  @render _ Toy.lit (Toy.fresh Toy.cam1 2) false Toy.cam1
    (Toy.draws Toy.quarter) = Fault OutOfBounds.
Proof.
  assert (H : res_x Toy.cam1 * res_y Toy.cam1 <
              N.to_nat (m_M (Toy.fresh Toy.cam1 2)))
    by (vm_compute; lia).
  split; [exact H|].
  exact (proj2 (@constructor_accepts_any_M _ Toy.lit) _ _ _ _ H).
Defined.

(* ================================================================== *)
(** ** The scatter buffer is merged unchecked *)
(* ================================================================== *)

Section ScatterMerge.
Context `{C : Collaborators}.

Lemma channel_add a b k :
  channel (col3_add a b) k = F32.add (channel a k) (channel b k).
Proof. by destruct k as [|[|k]]. Qed.

Lemma channel_scale a s k :
  channel (col3_scale a s) k = F32.mul (channel a k) s.
Proof. by destruct k as [|[|k]]. Qed.

(** a splat never makes a non-finite entry of the buffer finite again *)
Lemma calculate_s1_body_poison r sc cam y z s buf buf' :
  calculate_s1_body r sc cam y z s buf = Ok buf' ->
  img_w buf' = img_w buf /\
  forall i v k, img_data buf !! i = Some v -> isfinite (channel v k) = false ->
    exists v', img_data buf' !! i = Some v' /\ isfinite (channel v' k) = false.
Proof.
  unfold calculate_s1_body. intros H.
  assert (Hid : forall b, Ok buf = Ok b ->
    img_w b = img_w buf /\
    forall i v k, img_data buf !! i = Some v -> isfinite (channel v k) = false ->
      exists v', img_data b !! i = Some v' /\ isfinite (channel v' k) = false).
  { intros b [= <-]. split; [done|]. intros i v k Hv Hk. by exists v. }
  apply bind_Ok in H as (z0 & _ & H). apply bind_Ok in H as (ysm1 & _ & H).
  repeat match type of H with
         | (if ?b then _ else _) = _ => destruct b; [by apply Hid|]
         | match ?o with Some _ => _ | None => _ end = _ =>
           destruct o as [[px py]|]; [|by apply Hid]
         end.
  destruct (decide _) as [_|]; [|discriminate].
  apply bind_Ok in H as (old & Hold & H).
  apply pixel_set_Ok in H as [Hlt ->]. simpl. split; [done|].
  intros i v k Hv Hk.
  destruct (decide (i = pixel_index buf px py)) as [->|Hne].
  - eexists. split; [by apply list_lookup_insert_eq|].
    unfold pixel_get in Hold. apply at_index_Ok in Hold.
    rewrite Hv in Hold. injection Hold as <-.
    rewrite channel_add. by apply SFadd_nonfinite_l.
  - exists v. by rewrite list_lookup_insert_ne.
Qed.

Lemma calculate_s1_poison r sc cam y z buf buf' :
  calculate_s1 r sc cam y z buf = Ok buf' ->
  forall i v k, img_data buf !! i = Some v -> isfinite (channel v k) = false ->
    exists v', img_data buf' !! i = Some v' /\ isfinite (channel v' k) = false.
Proof.
  unfold calculate_s1. generalize (seq 1 (length y)). intros l. revert buf.
  induction l as [|s l IH]; intros buf H i v k Hv Hk; simpl in H.
  - injection H as <-. by exists v.
  - apply bind_Ok in H as (b1 & H1 & H2).
    apply calculate_s1_body_poison in H1 as [_ H1].
    destruct (H1 i v k Hv Hk) as (v1 & Hv1 & Hk1).
    by apply (IH b1 H2 i v1 k).
Qed.

Lemma calculate_s1_width r sc cam y z buf buf' :
  calculate_s1 r sc cam y z buf = Ok buf' -> img_w buf' = img_w buf.
Proof.
  unfold calculate_s1. generalize (seq 1 (length y)). intros l. revert buf.
  induction l as [|s l IH]; intros buf H; simpl in H; [by injection H as <-|].
  apply bind_Ok in H as (b1 & H1 & H2).
  apply calculate_s1_body_poison in H1 as [H1 _].
  rewrite (IH _ H2). done.
Qed.

Lemma render_pixels_buf_width r sc cam sch l : forall st st',
  for_each l (render_pixel r sc cam sch) st = Ok st' ->
  img_w st'.2 = img_w st.2.
Proof.
  induction l as [|p l IH]; intros st st' H; simpl in H;
    [by injection H as <-|].
  apply bind_Ok in H as (st1 & H1 & H2). rewrite (IH _ _ H2).
  unfold render_pixel in H1.
  apply bind_Ok in H1 as ([col b1] & Hrad & H1).
  apply bind_Ok in H1 as (s1 & _ & H1). injection H1 as <-. simpl.
  apply radiance_Ok in Hrad as (lpath & c0t & st0 & _ & Hs1 & _).
  by apply calculate_s1_width in Hs1.
Qed.

(** the same through the rest of the pixel loop *)
Lemma render_pixels_poison r sc cam sch l : forall st st',
  for_each l (render_pixel r sc cam sch) st = Ok st' ->
  forall i v k, img_data st.2 !! i = Some v -> isfinite (channel v k) = false ->
    exists v', img_data st'.2 !! i = Some v' /\ isfinite (channel v' k) = false.
Proof.
  induction l as [|p l IH]; intros st st' H i v k Hv Hk; simpl in H.
  - injection H as <-. by exists v.
  - apply bind_Ok in H as (st1 & H1 & H2).
    unfold render_pixel in H1.
    apply bind_Ok in H1 as ([col b1] & Hrad & H1).
    apply bind_Ok in H1 as (s1 & _ & H1). injection H1 as <-.
    apply radiance_Ok in Hrad as (lpath & c0t & st0 & _ & Hs1 & _).
    destruct (calculate_s1_poison _ _ _ _ _ _ _ Hs1 i v k Hv Hk)
      as (v1 & Hv1 & Hk1).
    by apply (IH _ _ H2 i v1 k).
Qed.

(** C10.  The merge of lines 128-136 is unconditional and unchecked.  Every
    pixel of the returned image is its stored colour plus the scaled
    scatter-buffer entry, also when the NaN test rejected the pixel's own
    colour, where it is zero plus the scaled entry.  A non-finite channel of
    the entry makes that channel of the returned pixel non-finite.  And a
    channel of the buffer that is non-finite at any point of the pixel loop
    -- as it is after a splat whose contribution is non-finite there --
    stays so and reaches the returned image. *)
Theorem scatter_merge_unchecked
    (r : renderer) (sc : scene) (cam : camera) (sch : schedule)
    (img : imagef) (r' : renderer) :
  render r sc cam sch = Ok (img, r') ->
  (forall x y, x < res_x cam -> y < res_y cam ->
     exists r1 col b0 b1 s1 c,
       prepare_frame r sc cam sch = Ok r1 /\
       radiance r1 x y sc cam (pixel_rng sch x y) b0 = Ok (col, b1) /\
       pixel_get (m_buf_s1 r') x y = Ok s1 /\
       pixel_get img x y = Ok c /\
       c = col3_add
             (if isnan (F32.add (F32.add (col_r col) (col_g col)) (col_b col))
              then col3_zero else col)
             (col3_scale s1 (F32.div F32.one (F32.of_nat (m_ns1 r)))) /\
       forall k, isfinite (channel s1 k) = false ->
                 isfinite (channel c k) = false) /\
  (forall old contrib k,
     isfinite (channel contrib k) = false ->
     isfinite (channel (col3_add old contrib) k) = false) /\
  (forall r1 l1 l2 mid x y k v,
     prepare_frame r sc cam sch = Ok r1 ->
     grid (res_x cam) (res_y cam) = l1 ++ l2 ->
     for_each l1 (render_pixel r1 sc cam sch)
       (imagef_new (res_x cam) (res_y cam), m_buf_s1 r1) = Ok mid ->
     x < res_x cam -> y < res_y cam ->
     pixel_get mid.2 x y = Ok v ->
     isfinite (channel v k) = false ->
     exists c, pixel_get img x y = Ok c /\ isfinite (channel c k) = false).
Proof.
  intros Hrender.
  assert (Hpix : forall x y, x < res_x cam -> y < res_y cam ->
     exists r1 col b0 b1 s1 c,
       prepare_frame r sc cam sch = Ok r1 /\
       radiance r1 x y sc cam (pixel_rng sch x y) b0 = Ok (col, b1) /\
       pixel_get (m_buf_s1 r') x y = Ok s1 /\
       pixel_get img x y = Ok c /\
       c = col3_add
             (if isnan (F32.add (F32.add (col_r col) (col_g col)) (col_b col))
              then col3_zero else col)
             (col3_scale s1 (F32.div F32.one (F32.of_nat (m_ns1 r)))) /\
       forall k, isfinite (channel s1 k) = false ->
                 isfinite (channel c k) = false).
  { intros x y Hx Hy.
    destruct (render_pixel_value _ _ _ _ _ _ Hrender x y Hx Hy)
      as (r1 & col & b0 & b1 & s1 & Hprep & Hrad & Hbuf & Himg).
    exists r1, col, b0, b1, s1. eexists.
    split; [done|]. split; [done|]. split; [done|]. split; [exact Himg|].
    split; [done|]. intros k Hk.
    rewrite channel_add, channel_scale.
    apply SFadd_nonfinite_r. by apply SFmul_nonfinite_l. }
  split; [exact Hpix|]. split.
  - intros old contrib k Hk. rewrite channel_add. by apply SFadd_nonfinite_r.
  - intros r1 l1 l2 mid x y k v Hprep Hgrid Hmid Hx Hy Hv Hk.
    destruct (Hpix x y Hx Hy)
      as (r1' & col & b0 & b1 & s1 & c & Hprep' & _ & Hbuf & Himg & _ & Hfin).
    exists c. split; [done|]. apply Hfin.
    apply render_Ok in Hrender as (r2 & screen & buf & H1 & H2 & _ & ->).
    rewrite Hprep in H1. injection H1 as <-. simpl in Hbuf.
    unfold render_pixels in H2. rewrite Hgrid, for_each_app, Hmid in H2.
    simpl in H2.
    unfold pixel_get in Hv, Hbuf. apply at_index_Ok in Hv, Hbuf.
    assert (Hw : pixel_index buf x y = pixel_index mid.2 x y).
    { unfold pixel_index.
      pose proof (render_pixels_buf_width _ _ _ _ _ _ _ H2) as Hbw.
      simpl in Hbw. by rewrite Hbw. }
    destruct (render_pixels_poison _ _ _ _ _ _ _ H2 _ v k Hv Hk)
      as (v' & Hv' & Hk'). simpl in Hv'.
    rewrite Hw, Hv' in Hbuf. by injection Hbuf as <-.
Qed.

End ScatterMerge.

(* ================================================================== *)
(** ** The theorems at work in the small world *)
(* ================================================================== *)

(** one pixel, one light vertex, one cache with mass; the draw 1/4 selects
    the cache, its sample connects, and the iteration adds the weighted
    contribution *)
Lemma resampling_weight_and_contribution_witness :
  exists L,
    @calculate_st_body _ Toy.lit (Toy.ready Toy.lit) false
      [Toy.lens; Toy.surface Toy.good_cache] 2 (Toy.start Toy.quarter) =
    Ok (mk_st_state L Toy.spent [EvSample 2 0]).
Proof.
  eexists.
  refine (proj2 (@resampling_weight_and_contribution _ Toy.lit
    (Toy.ready Toy.lit) false [Toy.lens; Toy.surface Toy.good_cache] 2
    (Toy.start Toy.quarter) (Toy.surface Toy.good_cache) Toy.quarter
    Toy.spent Toy.spent
    0 (mk_candidate 0 0) _ [EvSample 2 0] [Toy.light_vertex] Toy.light_vertex
    _ _ _ _ _ _ _ _ _ _ _ _ _)).
  - reflexivity.
  - reflexivity.
  - reflexivity.
  - intros _. exists Toy.good_cache. split; reflexivity.
  - reflexivity.
  - reflexivity.
  - reflexivity.
  - reflexivity.
  - reflexivity.
  - reflexivity.
  - simpl. lia.
  - reflexivity.
Defined.

(** two frames from construction: the counter is 2, the sum is the two
    terms added to zero, the estimate their mean *)
Lemma progressive_normalization_witness :
  exists hist,
    @render_frames _ Toy.lit (Toy.fresh Toy.cam1 1)
      [(false, Toy.cam1, Toy.draws Toy.quarter);
       (false, Toy.cam1, Toy.draws Toy.three_quarters)] = Ok hist /\
    m_ite (latest (Toy.fresh Toy.cam1 1) hist) = 2 /\
    m_Qp (latest (Toy.fresh Toy.cam1 1) hist) =
      F64.to_f32
        (F64.div
           (fold_left F64.add (@frame_term _ <$> reverse hist) F64.zero)
           (F64.of_nat 2)).
Proof.
  destruct (@render_frames _ Toy.lit (Toy.fresh Toy.cam1 1)
      [(false, Toy.cam1, Toy.draws Toy.quarter);
       (false, Toy.cam1, Toy.draws Toy.three_quarters)]) as [hist|f] eqn:E;
    [|vm_compute in E; discriminate].
  exists hist. split; [reflexivity|].
  destruct (proj2 (@progressive_normalization _ Toy.lit) _ _ _ E)
    as (_ & Hite & _ & _ & _ & HQp).
  split; [exact Hite|].
  apply HQp; [reflexivity|reflexivity|simpl; lia].
Defined.

(** a cache with zero normalization is skipped; a cache with mass is the
    only one sampled *)
Lemma zero_cache_never_sampled_witness :
  @calculate_st_body _ Toy.starved (Toy.ready Toy.starved) false
    [Toy.lens; Toy.surface Toy.empty_cache] 2 (Toy.start Toy.quarter) =
    Ok (mk_st_state col3_zero Toy.spent []) /\
  exists ztm1 c,
    [Toy.lens; Toy.surface Toy.good_cache] !! (2 - 1) = Some ztm1 /\
    cv_neighbor_cache ztm1 !! 0 = Some c /\
    F32.eqb (normalization_constant c) F32.zero = false.
Proof.
  split.
  - refine (proj1 (@zero_cache_never_sampled _ Toy.starved
      (Toy.ready Toy.starved) false [Toy.lens; Toy.surface Toy.empty_cache])
      2 (Toy.start Toy.quarter) (Toy.surface Toy.empty_cache) Toy.quarter
      Toy.spent Toy.empty_cache _ _ _ _ _ _).
    + reflexivity.
    + reflexivity.
    + reflexivity.
    + vm_compute. discriminate.
    + reflexivity.
    + reflexivity.
  - destruct (@calculate_st _ Toy.lit (Toy.ready Toy.lit) false
      [Toy.lens; Toy.surface Toy.good_cache] (Toy.gen Toy.quarter))
      as [st|f] eqn:E;
      [|vm_compute in E; discriminate].
    apply (proj2 (@zero_cache_never_sampled _ Toy.lit (Toy.ready Toy.lit)
      false [Toy.lens; Toy.surface Toy.good_cache]) _ _ E 2 0).
    vm_compute in E. injection E as <-. apply list_elem_of_here.
Defined.

(** a 2 x 1 image with [M] at its maximum 2: both sub-paths are read, the
    pool has their two vertices *)
Lemma candidate_pool_layout_witness :
  N.to_nat (m_M (Toy.fresh Toy.cam2 2)) <= res_x Toy.cam2 * res_y Toy.cam2 /\
  exists r1,
    @prepare_frame _ Toy.lit (Toy.fresh Toy.cam2 2) false Toy.cam2
      (Toy.draws Toy.quarter) = Ok r1 /\
    m_candidates r1 = [mk_candidate 0 0; mk_candidate 1 0].
Proof.
  assert (H : N.to_nat (m_M (Toy.fresh Toy.cam2 2)) <=
              res_x Toy.cam2 * res_y Toy.cam2) by (vm_compute; lia).
  split; [exact H|].
  destruct (@candidate_pool_layout _ Toy.lit (Toy.fresh Toy.cam2 2) false
              Toy.cam2 (Toy.draws Toy.quarter) H)
    as (pool & _ & _ & Hpool & _ & _ & _ & Hr).
  destruct (@prepare_frame _ Toy.lit (Toy.fresh Toy.cam2 2) false Toy.cam2
              (Toy.draws Toy.quarter)) as [r1|f] eqn:E;
    [|vm_compute in E; discriminate].
  exists r1. split; [reflexivity|].
  destruct (Hr r1 eq_refl) as [_ ->]. rewrite Hpool. reflexivity.
Defined.

(** the second frame of a renderer built for the 1 x 1 camera *)
Lemma returned_image_pixel_witness :
  exists hist img r' s1 col,
    @render_frames _ Toy.lit (Toy.fresh Toy.cam1 1)
      [(false, Toy.cam1, Toy.draws Toy.three_quarters)] = Ok hist /\
    @render _ Toy.lit (latest (Toy.fresh Toy.cam1 1) hist) false Toy.cam1
      (Toy.draws Toy.quarter) = Ok (img, r') /\
    pixel_get (m_buf_s1 r') 0 0 = Ok s1 /\
    pixel_get img 0 0 =
      Ok (col3_add col
            (col3_scale s1 (F32.div F32.one (F32.of_nat (1 * 1))))).
Proof.
  destruct (@render_frames _ Toy.lit (Toy.fresh Toy.cam1 1)
      [(false, Toy.cam1, Toy.draws Toy.three_quarters)]) as [hist|f] eqn:Eh;
    [|vm_compute in Eh; discriminate].
  pose proof Eh as Eh'. vm_compute in Eh'. injection Eh' as Eh'.
  subst hist.
  match type of Eh with _ = Ok ?h => set (hist := h) in * end.
  destruct (@render _ Toy.lit (latest (Toy.fresh Toy.cam1 1) hist) false
      Toy.cam1 (Toy.draws Toy.quarter)) as [[img r']|f] eqn:E;
    [|vm_compute in E; discriminate].
  destruct (@returned_image_pixel _ Toy.lit Toy.cam1 1 1 F32.zero
              (Toy.fresh Toy.cam1 1)
              [(false, Toy.cam1, Toy.draws Toy.three_quarters)] hist false
              Toy.cam1 (Toy.draws Toy.quarter) img r' 0 0)
    as (r1 & lpath & c0t & st & col & b0 & b & _ & _ & _ & _ & _ & _ &
        s1 & Hbuf & Himg).
  - reflexivity.
  - exact Eh.
  - exact E.
  - simpl. lia.
  - simpl. lia.
  - exists hist, img, r', s1. eexists.
    split; [exact Eh|]. split; [exact E|]. split; [exact Hbuf|exact Himg].
Defined.

(** the same frame: the pixel is its own colour plus the scaled scatter
    entry; and with a light vertex of infinite throughput the splat is
    infinite and so is the returned pixel *)
Lemma scatter_merge_unchecked_witness :
  (exists img r' s1 c,
     @render _ Toy.lit (Toy.fresh Toy.cam1 1) false Toy.cam1
       (Toy.draws Toy.quarter) = Ok (img, r') /\
     pixel_get (m_buf_s1 r') 0 0 = Ok s1 /\
     pixel_get img 0 0 = Ok c /\
     (forall k, isfinite (channel s1 k) = false ->
                isfinite (channel c k) = false)) /\
  (exists img r' c,
     @render _ Toy.glare (Toy.fresh Toy.cam1 1) false Toy.cam1
       (Toy.draws Toy.quarter) = Ok (img, r') /\
     pixel_get img 0 0 = Ok c /\ isfinite (channel c 0) = false).
Proof.
  split.
  - destruct (@render _ Toy.lit (Toy.fresh Toy.cam1 1) false Toy.cam1
        (Toy.draws Toy.quarter)) as [[img r']|f] eqn:E;
      [|vm_compute in E; discriminate].
    destruct (@scatter_merge_unchecked _ Toy.lit _ _ _ _ _ _ E) as [H _].
    destruct (H 0 0)
      as (r1 & col & b0 & b1 & s1 & c & _ & _ & Hb & Hi & _ & Hf).
    + simpl. lia.
    + simpl. lia.
    + exists img, r', s1, c. split; [reflexivity|].
      split; [exact Hb|]. split; [exact Hi|exact Hf].
  - destruct (@render _ Toy.glare (Toy.fresh Toy.cam1 1) false Toy.cam1
        (Toy.draws Toy.quarter)) as [[img r']|f] eqn:E;
      [|vm_compute in E; discriminate].
    destruct (@scatter_merge_unchecked _ Toy.glare _ _ _ _ _ _ E)
      as (_ & _ & H).
    assert (Hprep : @prepare_frame _ Toy.glare (Toy.fresh Toy.cam1 1) false
                      Toy.cam1 (Toy.draws Toy.quarter) =
                    Ok (Toy.ready Toy.glare)) by (vm_compute; reflexivity).
    destruct (for_each (grid (res_x Toy.cam1) (res_y Toy.cam1))
                (@render_pixel _ Toy.glare (Toy.ready Toy.glare) false
                   Toy.cam1 (Toy.draws Toy.quarter))
                (imagef_new (res_x Toy.cam1) (res_y Toy.cam1),
                 m_buf_s1 (Toy.ready Toy.glare))) as [mid|f] eqn:Em;
      [|vm_compute in Em; discriminate].
    destruct (H (Toy.ready Toy.glare)
                (grid (res_x Toy.cam1) (res_y Toy.cam1)) [] mid 0 0 0
                (mk_col3 pos_inf pos_inf pos_inf))
      as (c & Hc & Hfin).
    + exact Hprep.
    + symmetry. apply app_nil_r.
    + exact Em.
    + simpl. lia.
    + simpl. lia.
    + vm_compute in Em. injection Em as <-. reflexivity.
    + reflexivity.
    + exists img, r', c. split; [reflexivity|]. split; [exact Hc|exact Hfin].
Defined.

(* ================================================================== *)
(** ** The unidirectional and the light-tracing strategy *)
(* ================================================================== *)

Section DirectStrategies.
Context `{C : Collaborators}.

(** a loop whose iterations all leave the state alone *)
Lemma for_each_unchanged {A S} (l : list A) (body : A -> S -> outcome S) s :
  (forall a, a ∈ l -> body a s = Ok s) -> for_each l body s = Ok s.
Proof.
  induction l as [|a l IH]; intros H; simpl; [done|].
  rewrite H by apply list_elem_of_here. simpl.
  apply IH. intros b Hb. apply H. by apply list_elem_of_further.
Qed.

(** [calculate_0t] never reads the eye sub-path out of range.  It returns
    black for a sub-path of fewer than two vertices and for one that does
    not end on an emitter; when the last vertex [v] is emissive it returns
    [Le * throughput_We * 1 / (1 + cp)], [cp] the camera partial weight
    evaluated for [s = 0]. *)
Theorem calculate_0t_total (r : renderer) (sc : scene) (y : light_path)
    (z : camera_path) :
  exists c,
    calculate_0t r sc y z = Ok c /\
    (length z < 2 -> c = col3_zero) /\
    (forall v, last z = Some v -> cv_is_emissive v = false -> c = col3_zero) /\
    (forall v, 2 <= length z -> last z = Some v -> cv_is_emissive v = true ->
       c = col3_scale (col3_mul (cv_Le v) (cv_throughput_We v))
             (F32.div F32.one
                (F32.add F32.one
                   (camera_mis_partial_weight sc y 0 z (length z)
                      direction_default (cv_wi v) (m_M r) (m_Qp r))))).
Proof.
  unfold calculate_0t. destruct (decide (2 <= length z)) as [H2|H2].
  - destruct (lookup_lt_is_Some_2 z (length z - 1)) as [v Hv]; [lia|].
    assert (Hlast : last z = Some v).
    { rewrite last_lookup. by replace (pred (length z)) with (length z - 1) by lia. }
    unfold at_index. rewrite Hv. simpl.
    destruct (cv_is_emissive v) eqn:Hem; eexists; (split; [reflexivity|]).
    + split; [lia|]. split.
      * intros v' Hv'. rewrite Hlast in Hv'. injection Hv' as <-. congruence.
      * intros v' _ Hv'. rewrite Hlast in Hv'. by injection Hv' as <-.
    + split; [done|]. split; [done|].
      intros v' _ Hv'. rewrite Hlast in Hv'. injection Hv' as <-. congruence.
  - exists col3_zero. split; [done|]. split; [done|]. split; [done|]. lia.
Qed.

(** the dimensions of the scatter buffer survive a splat *)
Lemma calculate_s1_body_dims r sc cam y z s buf buf' :
  calculate_s1_body r sc cam y z s buf = Ok buf' ->
  img_w buf' = img_w buf /\ img_h buf' = img_h buf /\
  length (img_data buf') = length (img_data buf).
Proof.
  unfold calculate_s1_body. intros H.
  apply bind_Ok in H as (z0 & _ & H). apply bind_Ok in H as (ysm1 & _ & H).
  repeat match type of H with
         | (if ?b then _ else _) = _ => destruct b; [by injection H as <-|]
         | match ?o with Some _ => _ | None => _ end = _ =>
           destruct o as [[px py]|]; [|by injection H as <-]
         end.
  destruct (decide _) as [_|]; [|discriminate].
  apply bind_Ok in H as (old & _ & H).
  apply pixel_set_Ok in H as [_ ->]. simpl. by rewrite length_insert.
Qed.

(** one splat cannot fail when the eye sub-path has its lens vertex, the
    light vertex exists, and the projected pixel has its spinlock and lies
    in the buffer *)
Lemma calculate_s1_body_safe r sc cam (y : light_path) (z : camera_path) s buf :
  0 < length z -> 1 <= s <= length y ->
  (forall p d px py, calc_intersection cam p d = Some (px, py) ->
     px + res_x cam * py < m_locks r /\
     px + img_w buf * py < length (img_data buf)) ->
  exists buf', calculate_s1_body r sc cam y z s buf = Ok buf'.
Proof.
  intros Hz Hs Hproj. unfold calculate_s1_body.
  destruct (lookup_lt_is_Some_2 z 0) as [z0 Hz0]; [lia|].
  destruct (lookup_lt_is_Some_2 y (s - 1)) as [ys Hys]; [lia|].
  unfold at_index. rewrite Hz0, Hys. simpl.
  destruct (_ || _); [by eexists|]. destruct (_ || _); [by eexists|].
  destruct (calc_intersection _ _ _) as [[px py]|] eqn:Hc; [|by eexists].
  destruct (scene_intersect _ _ _ _); [by eexists|].
  apply Hproj in Hc as [Hlock Hc].
  destruct (decide (px + res_x cam * py < m_locks r)); [|lia].
  destruct (lookup_lt_is_Some_2 (img_data buf) (px + img_w buf * py))
    as [old Hold]; [done|].
  unfold pixel_get, pixel_set, pixel_index, at_index, store_at.
  rewrite Hold. simpl. destruct (decide (_ < _)); [|lia]. by eexists.
Qed.

(** a splat that gets as far as line 225 with a pixel that has no spinlock
    reads past the array of spinlocks *)
Lemma calculate_s1_body_lock r sc cam (y : light_path) (z : camera_path) s buf
    z0 ys px py :
  z !! 0 = Some z0 -> y !! (s - 1) = Some ys ->
  s1_connects sc z0 ys = true ->
  calc_intersection cam (cv_p z0) (s1_zy z0 ys) = Some (px, py) ->
  m_locks r <= px + res_x cam * py ->
  calculate_s1_body r sc cam y z s buf = Fault OutOfBounds.
Proof.
  intros Hz0 Hys Hconn Hc Hlock. unfold calculate_s1_body, at_index.
  unfold light_path, camera_path in *. rewrite Hz0, Hys. simpl.
  unfold s1_connects, s1_zy in Hconn. unfold s1_zy in Hc.
  apply andb_prop in Hconn as [Hconn Hvis].
  apply andb_prop in Hconn as [Hzy Hyz].
  apply negb_true_iff in Hzy, Hyz, Hvis.
  simpl in Hzy, Hyz, Hvis, Hc.
  rewrite Hzy, Hyz, Hc, Hvis.
  destruct (decide (px + res_x cam * py < m_locks r)); [lia|done].
Qed.

(** Light tracing and the memory it touches.  A light sub-path without
    vertices leaves the scatter buffer as it is.  When the eye sub-path has
    its lens vertex and the camera only projects to pixels [(x, y)] for which
    [x + res_x * y] lies inside the array of spinlocks and [x + width * y]
    inside the buffer, [calculate_s1] does not fault, and it returns a buffer
    of the same width, height and size.  The spinlock is needed: when the
    first light vertex connects to the lens vertex and projects to a pixel
    whose [x + res_x * y] is not below the number of spinlocks, the call
    reads past that array. *)
Theorem calculate_s1_safe (r : renderer) (sc : scene) (cam : camera)
    (y : light_path) (z : camera_path) (buf : imagef) :
  (y = [] -> calculate_s1 r sc cam y z buf = Ok buf) /\
  (0 < length z ->
   (forall p d px py, calc_intersection cam p d = Some (px, py) ->
      px + res_x cam * py < m_locks r /\
      px + img_w buf * py < length (img_data buf)) ->
   exists buf',
     calculate_s1 r sc cam y z buf = Ok buf' /\
     img_w buf' = img_w buf /\ img_h buf' = img_h buf /\
     length (img_data buf') = length (img_data buf)) /\
  (forall z0 ys px py,
     z !! 0 = Some z0 -> y !! 0 = Some ys ->
     s1_connects sc z0 ys = true ->
     calc_intersection cam (cv_p z0) (s1_zy z0 ys) = Some (px, py) ->
     m_locks r <= px + res_x cam * py ->
     calculate_s1 r sc cam y z buf = Fault OutOfBounds).
Proof.
  split; [by intros ->|]. split.
  - intros Hz Hproj. unfold calculate_s1.
    assert (Hin : forall s, s ∈ seq 1 (length y) -> 1 <= s <= length y).
    { intros s Hs. apply elem_of_seq in Hs. lia. }
    revert Hin buf Hproj. generalize (seq 1 (length y)). intros l.
    induction l as [|s l IH]; intros Hin buf Hproj; simpl.
    + by exists buf.
    + destruct (calculate_s1_body_safe r sc cam y z s buf Hz) as [b1 Hb1];
        [apply Hin; left|done|].
      rewrite Hb1. simpl.
      apply calculate_s1_body_dims in Hb1 as (Hw & Hh & Hlen).
      destruct (IH (fun s' Hs' => Hin s' (list_elem_of_further _ _ _ Hs')) b1)
        as (b2 & Hb2 & Hw2 & Hh2 & Hlen2).
      { intros p d px py Hc. rewrite Hw, Hlen. exact (Hproj _ _ _ _ Hc). }
      exists b2. rewrite Hb2. repeat split; congruence.
  - intros z0 ys px py Hz0 Hys Hconn Hc Hlock. unfold calculate_s1.
    destruct y as [|y0 y']; [done|]. simpl.
    rewrite (calculate_s1_body_lock r sc cam (y0 :: y') z 1 buf z0 ys px py);
      done.
Qed.

End DirectStrategies.

(* ================================================================== *)
(** ** More on the resampling strategy *)
(* ================================================================== *)

Section ResamplingMore.
Context `{C : Collaborators}.

(** an iteration that returns leaves [L] alone, or has connected a vertex of
    one of the light sub-paths that is not occluded and adds one term *)
Lemma calculate_st_body_L r sc z t st st' :
  calculate_st_body r sc z t st = Ok st' ->
  st_L st' = st_L st \/
  exists i y j ysm1 d dist c,
    m_light_paths r !! i = Some y /\ y !! j = Some ysm1 /\
    scene_intersect sc (lv_p ysm1) d dist = false /\
    st_L st' = col3_add (st_L st) c.
Proof.
  unfold calculate_st_body. intros H.
  apply bind_Ok in H as (ztm1 & Hz & H).
  destruct (cv_is_emissive ztm1); [injection H as <-; by left|].
  destruct (generate_uniform_real (st_rng st)) as [u g1].
  apply bind_Ok in H as (zc & Hzc & H).
  destruct zc; [injection H as <-; by left|].
  apply bind_Ok in H as ([[[[sample_idx cand] pmf] g2] ev] & Hr & H).
  apply bind_Ok in H as (y & Hy & H). apply bind_Ok in H as (ysm1 & Hys & H).
  apply at_index_Ok in Hy, Hys.
  destruct (_ || _); [injection H as <-; by left|].
  destruct (_ || _); [injection H as <-; by left|].
  destruct (scene_intersect _ _ _ _) eqn:Hvis; [injection H as <-; by left|].
  apply bind_Ok in H as (w & _ & H). injection H as <-. right. simpl.
  by eexists _, y, _, ysm1, _, _, _.
Qed.

(** an iteration that returns leaves the log alone, or appends its one
    call, on a real cache *)
Lemma calculate_st_body_event r sc z t st st' :
  calculate_st_body r sc z t st = Ok st' ->
  st_log st' = st_log st \/
  exists i, i < Nc /\ st_log st' = st_log st ++ [EvSample t i].
Proof.
  unfold calculate_st_body. intros H.
  apply bind_Ok in H as (ztm1 & Hz & H).
  destruct (cv_is_emissive ztm1); [injection H as <-; by left|].
  destruct (generate_uniform_real (st_rng st)) as [u g1].
  apply bind_Ok in H as (zc & Hzc & H).
  destruct zc; [injection H as <-; by left|].
  apply bind_Ok in H as ([[[[sample_idx cand] pmf] g2] ev] & Hr & H).
  assert (Hlog : st_log st' = st_log st ++ ev).
  { apply bind_Ok in H as (y & _ & H). apply bind_Ok in H as (ysm1 & _ & H).
    repeat (match type of H with
            | (if ?b then _ else _) = _ => destruct b
            end; [by injection H as <-|]).
    apply bind_Ok in H as (w & _ & H). by injection H as <-. }
  rewrite Hlog. apply resample_log in Hr as [[_ ->]|[Hne ->]].
  - left. by rewrite app_nil_r.
  - right. exists (select_cache u). split; [|done].
    pose proof (select_cache_le u). lia.
Qed.

(** the calls made by the iterations [a], ..., [a + n - 1] *)
Lemma calculate_st_events r sc z n : forall a st st',
  for_each (seq a n) (calculate_st_body r sc z) st = Ok st' ->
  exists evs,
    st_log st' = st_log st ++ evs /\
    length evs <= n /\
    Forall (fun e => a <= ev_t e < a + n /\ ev_cache e < Nc) evs /\
    StronglySorted (fun e e' => ev_t e < ev_t e') evs.
Proof.
  induction n as [|n IH]; intros a st st' H; simpl in H.
  - injection H as <-. exists []. rewrite app_nil_r.
    repeat split; (done || constructor).
  - apply bind_Ok in H as (s1 & H1 & H2).
    destruct (IH _ _ _ H2) as (evs & Hlog & Hlen & Hall & Hsort).
    assert (Hall' : Forall (fun e => a <= ev_t e < a + S n /\ ev_cache e < Nc)
                      evs).
    { eapply Forall_impl; [exact Hall|]. simpl. intros e. lia. }
    apply calculate_st_body_event in H1 as [H1|(i & Hi & H1)].
    + exists evs. rewrite Hlog, H1. repeat split; (done || lia).
    + exists (EvSample a i :: evs). rewrite Hlog, H1, <- app_assoc.
      split; [done|]. split; [simpl; lia|]. split.
      * constructor; [simpl; lia | done].
      * constructor; [done|].
        eapply Forall_impl; [exact Hall|]. simpl. intros e. lia.
Qed.

(** [calculate_st] samples at most one cache per eye vertex.  The calls of
    [sample] it makes are for iterations [t] in [2 .. nE], in increasing
    order and no two in the same iteration, each on a real neighbour cache
    (index below [Nc]); there are at most [nE - 1] of them. *)
Theorem calculate_st_one_sample_per_vertex (r : renderer) (sc : scene)
    (z : camera_path) (g : rng) (st : st_state) :
  calculate_st r sc z g = Ok st ->
  length (st_log st) <= length z - 1 /\
  Forall (fun e => 2 <= ev_t e <= length z /\ ev_cache e < Nc) (st_log st) /\
  StronglySorted (fun e e' => ev_t e < ev_t e') (st_log st).
Proof.
  unfold calculate_st. intros H.
  apply calculate_st_events in H as (evs & Hlog & Hlen & Hall & Hsort).
  simpl in Hlog. rewrite Hlog. split; [done|]. split; [|done].
  eapply Forall_impl; [exact Hall|]. simpl. intros e. lia.
Qed.

(** Emissive eye vertices take no part in resampling: when every vertex
    after the lens is emissive, [calculate_st] returns black, makes no call
    and leaves the generator as it found it. *)
Theorem calculate_st_all_emissive (r : renderer) (sc : scene)
    (z : camera_path) (g : rng) :
  (forall v, v ∈ drop 1 z -> cv_is_emissive v = true) ->
  calculate_st r sc z g = Ok (mk_st_state col3_zero g []).
Proof.
  intros Hem. unfold calculate_st. apply for_each_unchanged.
  intros t Ht. apply elem_of_seq in Ht. unfold calculate_st_body.
  destruct (lookup_lt_is_Some_2 z (t - 1)) as [v Hv]; [lia|].
  unfold at_index. rewrite Hv. simpl.
  rewrite Hem; [done|].
  apply list_elem_of_lookup. exists (t - 2).
  rewrite lookup_drop. by replace (1 + (t - 2)) with (t - 1) by lia.
Qed.

(** With every connection occluded, neither strategy that connects to a
    light vertex contributes: [calculate_s1] returns the scatter buffer
    unchanged, and whenever [calculate_st] returns, it returns black. *)
Theorem occluded_scene_contributes_nothing (r : renderer) (sc : scene)
    (cam : camera) (y : light_path) (z : camera_path) (g : rng)
    (buf : imagef) :
  (forall p d dist, scene_intersect sc p d dist = true) ->
  (0 < length z -> calculate_s1 r sc cam y z buf = Ok buf) /\
  (forall st, calculate_st r sc z g = Ok st -> st_L st = col3_zero).
Proof.
  intros Hocc. split.
  - intros Hz. unfold calculate_s1. apply for_each_unchanged.
    intros s Hs. apply elem_of_seq in Hs. unfold calculate_s1_body.
    destruct (lookup_lt_is_Some_2 z 0) as [z0 Hz0]; [lia|].
    destruct (lookup_lt_is_Some_2 y (s - 1)) as [ys Hys]; [lia|].
    unfold at_index. rewrite Hz0, Hys. simpl.
    destruct (_ || _); [done|]. destruct (_ || _); [done|].
    destruct (calc_intersection _ _ _) as [[px py]|]; [|done].
    by rewrite Hocc.
  - intros st H. unfold calculate_st in H.
    refine (for_each_invariant (fun s => st_L s = col3_zero) _ _ _
              (mk_st_state col3_zero g []) st eq_refl H).
    intros t s s' _ IH Hb.
    apply calculate_st_body_L in Hb
      as [->|(i & y' & j & ysm1 & d & dist & c & _ & _ & Hvis & _)]; [done|].
    rewrite Hocc in Hvis. done.
Qed.

(** The complement of the empty-pool case: with a candidate pool that is not
    empty (and fits [size_t]) and a generator whose integer draw honours its
    bounds, the virtual slot reads [m_candidates] in range; the candidate it
    returns is the pool's entry at the drawn index, with probability
    [1/float(Nc+1) * 1/float(size)], and no cache is sampled. *)
Theorem virtual_slot_in_range (r : renderer) (ztm1 : camera_path_vertex)
    (t : nat) (g : rng) :
  0 < length (m_candidates r) ->
  (Z.of_nat (length (m_candidates r)) < 2 ^ 64)%Z ->
  (forall lo hi, (lo <= hi)%Z ->
     (lo <= (generate_uniform_int g lo hi).1 <= hi)%Z) ->
  exists sample_idx cand,
    resample r ztm1 t Nc g =
      Ok (sample_idx, cand,
          F32.mul (F32.div F32.one (F32.of_nat (Nc + 1)))
            (F32.div F32.one
               (F32.of_N (N.of_nat (length (m_candidates r))))),
          (generate_uniform_int g 0
             (Z.of_nat (length (m_candidates r)) - 1)).2, []) /\
    sample_idx < length (m_candidates r) /\
    m_candidates r !! sample_idx = Some cand.
Proof.
  intros Hpos Hfit Hgen. unfold resample.
  destruct (decide (Nc ≠ Nc)); [done|].
  assert (Hsub : Z.of_N (size_t_sub (N.of_nat (length (m_candidates r))) 1) =
                 (Z.of_nat (length (m_candidates r)) - 1)%Z).
  { unfold size_t_sub. rewrite Z2N.id by (apply Z.mod_pos_bound; lia).
    rewrite nat_N_Z. apply Z.mod_small. simpl. lia. }
  rewrite Hsub.
  specialize (Hgen 0%Z (Z.of_nat (length (m_candidates r)) - 1)%Z
                ltac:(lia)).
  destruct (generate_uniform_int g 0 _) as [k g2]. simpl in Hgen |- *.
  assert (Hk : to_size_t k < length (m_candidates r)).
  { unfold to_size_t. rewrite Z.mod_small by lia. lia. }
  destruct (lookup_lt_is_Some_2 (m_candidates r) (to_size_t k)) as [cd Hcd];
    [done|].
  exists (to_size_t k), cd. unfold at_index. rewrite Hcd. simpl.
  by unfold selector_pmf.
Qed.

(** A real cache whose product [pmf(sample_idx) * normalization_constant()]
    is not positive has no term, so when it is the chosen one [val] is read
    without ever having been assigned.  A NaN normalization constant is such
    a case, and the zero test of line 263 does not catch it. *)
Theorem unassigned_val (r : renderer) (ztm1 : camera_path_vertex)
    (cache_idx sample_idx : nat) (c : cache) (lp cp : float) :
  Nc <= length (cv_neighbor_cache ztm1) ->
  cache_idx < Nc ->
  cv_neighbor_cache ztm1 !! cache_idx = Some c ->
  (spec_has_term c sample_idx = false ->
   resampling_mis_weight r ztm1 cache_idx sample_idx lp cp =
     Fault Uninitialised) /\
  (isnan (normalization_constant c) = true ->
   F32.eqb (normalization_constant c) F32.zero = false /\
   spec_has_term c sample_idx = false).
Proof.
  intros Hn Hi Hc. split.
  - intros Ht. rewrite resampling_mis_weight_spec by (done || lia).
    unfold spec_val. destruct (decide (cache_idx = Nc)); [lia|].
    by rewrite Hc, Ht.
  - intros Hnan. unfold spec_has_term.
    destruct (normalization_constant c); try done.
    split; [done|]. by destruct (cache_pmf c sample_idx).
Qed.

End ResamplingMore.

(* ================================================================== *)
(** ** More on a frame *)
(* ================================================================== *)

Section FrameMore.
Context `{C : Collaborators}.

Lemma calculate_s1_dims r sc cam y z buf buf' :
  calculate_s1 r sc cam y z buf = Ok buf' ->
  img_w buf' = img_w buf /\ img_h buf' = img_h buf /\
  length (img_data buf') = length (img_data buf).
Proof.
  unfold calculate_s1. generalize (seq 1 (length y)). intros l. revert buf.
  induction l as [|s l IH]; intros buf H; simpl in H; [by injection H as <-|].
  apply bind_Ok in H as (b1 & H1 & H2).
  apply calculate_s1_body_dims in H1 as (? & ? & ?).
  destruct (IH _ H2) as (? & ? & ?). repeat split; congruence.
Qed.

Lemma store_radiance_height screen x y col screen' :
  store_radiance screen x y col = Ok screen' -> img_h screen' = img_h screen.
Proof.
  unfold store_radiance. destruct (negb _); [|by intros [= <-]].
  intros H. by apply pixel_set_Ok in H as [_ ->].
Qed.

(** the pixel loop keeps the height of the screen and the dimensions of the
    scatter buffer *)
Lemma render_pixels_dims r sc cam sch l : forall st st',
  for_each l (render_pixel r sc cam sch) st = Ok st' ->
  img_h st'.1 = img_h st.1 /\
  img_w st'.2 = img_w st.2 /\ img_h st'.2 = img_h st.2 /\
  length (img_data st'.2) = length (img_data st.2).
Proof.
  induction l as [|p l IH]; intros st st' H; simpl in H;
    [by injection H as <-|].
  apply bind_Ok in H as (st1 & H1 & H2).
  destruct (IH _ _ H2) as (Hh & Hw & Hbh & Hlen).
  unfold render_pixel in H1.
  apply bind_Ok in H1 as ([col b1] & Hrad & H1).
  apply bind_Ok in H1 as (s1 & Hst & H1). injection H1 as <-. simpl in *.
  apply store_radiance_height in Hst.
  apply radiance_Ok in Hrad as (lpath & c0t & st0 & _ & Hs1 & _).
  apply calculate_s1_dims in Hs1 as (? & ? & ?).
  repeat split; congruence.
Qed.

Lemma merge_scatter_height r w h buf screen img :
  merge_scatter r w h buf screen = Ok img -> img_h img = img_h screen.
Proof.
  unfold merge_scatter. intros H.
  refine (for_each_invariant (fun s => img_h s = img_h screen) _ _ _
            screen img eq_refl H).
  intros p s s' _ IH Hb. unfold merge_pixel in Hb.
  apply bind_Ok in Hb as (v0 & _ & Hb). apply bind_Ok in Hb as (b & _ & Hb).
  by apply pixel_set_Ok in Hb as [_ ->].
Qed.

(** The image [render] returns has the resolution of the camera it was
    called with: its width, its height, and [width * height] pixels. *)
Theorem returned_image_dimensions (r : renderer) (sc : scene) (cam : camera)
    (sch : schedule) (img : imagef) (r' : renderer) :
  render r sc cam sch = Ok (img, r') ->
  img_w img = res_x cam /\ img_h img = res_y cam /\
  length (img_data img) = res_x cam * res_y cam.
Proof.
  intros H. apply render_Ok in H as (r1 & screen & buf & _ & H2 & H3 & _).
  pose proof (render_pixels_dims _ _ _ _ _ _ _ H2) as (Hh & _). simpl in Hh.
  apply render_pixels_value in H2 as (Hw & Hlen & _).
  pose proof (merge_scatter_height _ _ _ _ _ _ H3) as Hh3.
  unfold merge_scatter in H3.
  destruct (pixel_loop (S := imagef) id (merge_pixel buf (inv_ns1 r1))
              (fun _ _ _ => True) (res_x cam)) with
    (l := grid (res_x cam) (res_y cam)) (s := screen) (s' := img)
    as (Hw' & Hlen' & _).
  - intros [x y] s s' Hx Hs Hb. simpl in *.
    unfold merge_pixel in Hb. simpl in Hb.
    apply bind_Ok in Hb as (v0 & Hv0 & Hb).
    apply bind_Ok in Hb as (b & Hbuf & Hb).
    apply pixel_set_Ok in Hb as [Hlt ->]. simpl.
    unfold pixel_index in *. rewrite Hs in *.
    split; [done|]. split; [by rewrite length_insert|]. split.
    + intros i Hi. by rewrite list_lookup_insert_ne.
    + intros v Hv. eexists. split; [by rewrite list_lookup_insert_eq|done].
  - apply grid_NoDup.
  - intros [x y] Hp. by apply grid_elem in Hp as [? _].
  - done.
  - done.
  - simpl in *. split; [done|]. split; [congruence|congruence].
Qed.

(** no channel of a three-term sum that is not a NaN is a NaN *)
Lemma channel_sum_not_nan (c : col3) :
  isnan (F32.add (F32.add (col_r c) (col_g c)) (col_b c)) = false ->
  forall k, isnan (channel c k) = false.
Proof.
  unfold F32.add. rewrite !SFadd_isnan. intros H k.
  apply orb_false_elim in H as [H _]. apply orb_false_elim in H as [H Hb].
  apply orb_false_elim in H as [H _]. apply orb_false_elim in H as [Hr Hg].
  by destruct k as [|[|k]].
Qed.

(** What the NaN test achieves: after the pixel loop, before the scatter
    buffer is merged, no channel of any pixel of the screen is a NaN. *)
Theorem screen_holds_no_nan (r : renderer) (sc : scene) (cam : camera)
    (sch : schedule) (screen buf : imagef) :
  render_pixels r sc cam sch = Ok (screen, buf) ->
  forall x y, x < res_x cam -> y < res_y cam ->
    exists c, pixel_get screen x y = Ok c /\
              forall k, isnan (channel c k) = false.
Proof.
  intros H x y Hx Hy.
  apply render_pixels_value in H as (_ & _ & H).
  destruct (H x y Hx Hy) as (col & b0 & b1 & _ & Hc).
  eexists. split; [exact Hc|].
  destruct (isnan _) eqn:E.
  - by intros [|[|k]].
  - by apply channel_sum_not_nan.
Qed.

(** the two outcomes of the candidate-pool build *)
Lemma build_candidates_cases (paths : list light_path) (M : nat)
    (old : list candidate) :
  (M <= length paths /\ build_candidates paths M old = Ok (spec_pool paths M))
  \/ (length paths < M /\ build_candidates paths M old = Fault OutOfBounds).
Proof.
  destruct (decide (M <= length paths)) as [H|H].
  - left. split; [done|]. by apply build_candidates_Ok.
  - right. split; [lia|]. unfold build_candidates.
    rewrite count_vertices_Fault by lia. done.
Qed.

Lemma build_candidates_old (paths : list light_path) (M : nat)
    (old old' : list candidate) :
  build_candidates paths M old = build_candidates paths M old'.
Proof.
  destruct (build_candidates_cases paths M old) as [[H1 ->]|[H1 ->]];
    destruct (build_candidates_cases paths M old') as [[H2 ->]|[H2 ->]];
    (done || lia).
Qed.

(** [render] does not depend on what an earlier frame left in
    [m_candidates].  The count of lines 86-89 does not read the pool, line
    92 resizes it, which keeps the candidates that are already there, and
    lines 93-98 then write every slot of the resized pool: whatever the
    member holds, [render] returns the same frame and image, or the same
    fault. *)
Theorem render_ignores_stale_candidates (r : renderer)
    (cands : list candidate) (sc : scene) (cam : camera) (sch : schedule) :
  render (with_candidates r cands) sc cam sch = render r sc cam sch.
Proof.
  unfold render.
  assert (H : prepare_frame (with_candidates r cands) sc cam sch =
              prepare_frame r sc cam sch).
  { unfold prepare_frame. simpl.
    change (generate_caches (with_candidates r cands) sc cam sch)
      with (generate_caches r sc cam sch).
    by rewrite (build_candidates_old _ _ cands (m_candidates r)). }
  by rewrite H.
Qed.

(** The scatter buffer is cleared at the start of a frame: when it has the
    pixel count of the camera, what an earlier frame splatted into it has no
    effect on the frame or its image. *)
Theorem render_ignores_stale_buffer (r : renderer) (b : imagef) (sc : scene)
    (cam : camera) (sch : schedule) :
  length (img_data (m_buf_s1 r)) = res_x cam * res_y cam ->
  length (img_data b) = res_x cam * res_y cam ->
  img_w b = img_w (m_buf_s1 r) -> img_h b = img_h (m_buf_s1 r) ->
  render (with_buf r b) sc cam sch = render r sc cam sch.
Proof.
  intros Hr Hb Hw Hh. unfold render.
  assert (H : prepare_frame (with_buf r b) sc cam sch =
              prepare_frame r sc cam sch).
  { unfold prepare_frame. simpl.
    change (generate_caches (with_buf r b) sc cam sch)
      with (generate_caches r sc cam sch).
    destruct (build_candidates _ _ _) as [cands|f]; [|done]. simpl.
    unfold memset_zero. rewrite Hr, Hb, Hw, Hh.
    destruct (decide (_ <= _)); [|lia]. simpl.
    by rewrite !drop_ge by lia. }
  by rewrite H.
Qed.

(** a frame keeps the configuration and the dimensions of the scatter
    buffer *)
Lemma render_keeps r sc cam sch img r' :
  render r sc cam sch = Ok (img, r') ->
  m_M r' = m_M r /\ m_nt r' = m_nt r /\ m_ns1 r' = m_ns1 r /\
  img_w (m_buf_s1 r') = img_w (m_buf_s1 r) /\
  img_h (m_buf_s1 r') = img_h (m_buf_s1 r) /\
  length (img_data (m_buf_s1 r')) = length (img_data (m_buf_s1 r)).
Proof.
  intros H. apply render_Ok in H as (r1 & screen & buf & H1 & H2 & _ & ->).
  apply render_pixels_dims in H2 as (_ & Hw & Hh & Hlen). simpl in *.
  apply prepare_frame_Ok in H1 as (HM & Hnt & Hns & _ & _ & _ & _ & _ & Hm).
  unfold memset_zero in Hm. destruct (decide (_ <= _)) as [Hle|]; [|done].
  injection Hm as Hm. rewrite <- Hm in Hw, Hh, Hlen. simpl in *.
  rewrite length_app, length_replicate, length_drop in Hlen.
  repeat split; (congruence || lia).
Qed.

Lemma render_frames_keep : forall calls r0 hist,
  render_frames r0 calls = Ok hist ->
  m_M (latest r0 hist) = m_M r0 /\ m_nt (latest r0 hist) = m_nt r0 /\
  m_ns1 (latest r0 hist) = m_ns1 r0 /\
  img_w (m_buf_s1 (latest r0 hist)) = img_w (m_buf_s1 r0) /\
  img_h (m_buf_s1 (latest r0 hist)) = img_h (m_buf_s1 r0) /\
  length (img_data (m_buf_s1 (latest r0 hist))) =
    length (img_data (m_buf_s1 r0)).
Proof.
  induction calls as [|[[sc cam] sch] calls IH]; intros r0 hist H; simpl in H.
  - by injection H as <-.
  - apply bind_Ok in H as ([img r1] & Hr & H).
    apply bind_Ok in H as (rest & Hrest & H). injection H as <-. simpl in *.
    apply render_keeps in Hr as (? & ? & ? & ? & ? & ?).
    rewrite latest_snoc.
    destruct (IH _ _ Hrest) as (? & ? & ? & ? & ? & ?).
    repeat split; congruence.
Qed.

(** Through any number of frames a renderer keeps what its constructor set:
    [m_M], [m_nt], [m_ns1] and the width, height and size of the scatter
    buffer, those of the camera it was built for -- also when [render] is
    called with other cameras. *)
Theorem frames_keep_configuration (cam0 : camera) (M nt : N) (junk : float)
    (r0 : renderer) (calls : list (scene * camera * schedule))
    (hist : list renderer) :
  renderer_new cam0 M nt junk = Constructed r0 ->
  render_frames r0 calls = Ok hist ->
  let r := latest r0 hist in
  m_M r = M /\ m_nt r = nt /\ m_ns1 r = res_x cam0 * res_y cam0 /\
  img_w (m_buf_s1 r) = res_x cam0 /\ img_h (m_buf_s1 r) = res_y cam0 /\
  length (img_data (m_buf_s1 r)) = res_x cam0 * res_y cam0.
Proof.
  intros Hnew Hframes r.
  destruct (render_frames_keep _ _ _ Hframes) as (? & ? & ? & ? & ? & Hlen).
  injection Hnew as <-. simpl in *. rewrite length_replicate in Hlen.
  repeat split; done.
Qed.

Lemma render_overrun r sc cam sch :
  length (img_data (m_buf_s1 r)) < res_x cam * res_y cam ->
  render r sc cam sch = Fault OutOfBounds.
Proof.
  intros Hlen. unfold render, prepare_frame.
  destruct (build_candidates _ _ _) as [cands|f] eqn:E.
  - simpl. unfold memset_zero. destruct (decide (_ <= _)); [lia|done].
  - match type of E with
    | build_candidates ?p ?m ?o = _ =>
      destruct (build_candidates_cases p m o) as [[_ H']|[_ H']]
    end; rewrite H' in E; [done|]. by injection E as <-.
Qed.

(** A camera with more pixels than the one the renderer was built for is
    not supported: the [memset] of line 114 then clears [width * height]
    pixels of a smaller scatter buffer (if the candidate-pool build has not
    already read out of range), in whichever frame it happens. *)
Theorem larger_camera_overruns_buffer (cam0 : camera) (M nt : N)
    (junk : float) (r0 : renderer)
    (calls : list (scene * camera * schedule)) (hist : list renderer)
    (sc : scene) (cam : camera) (sch : schedule) :
  renderer_new cam0 M nt junk = Constructed r0 ->
  render_frames r0 calls = Ok hist ->
  res_x cam0 * res_y cam0 < res_x cam * res_y cam ->
  render (latest r0 hist) sc cam sch = Fault OutOfBounds.
Proof.
  intros Hnew Hframes Hbig. apply render_overrun.
  destruct (render_frames_keep _ _ _ Hframes) as (_ & _ & _ & _ & _ & ->).
  injection Hnew as <-. simpl. by rewrite length_replicate.
Qed.

End FrameMore.

(* ================================================================== *)
(** ** Light sub-paths, cache points, and a scene without lights *)
(* ================================================================== *)

Section LightsAndCaches.
Context `{C : Collaborators}.

(** Every pixel has its own light sub-path: after lines 77-82,
    [m_light_paths] has [width * height] entries, the slot [x + width * y]
    that [radiance] reads for pixel [(x, y)] is in range and holds the
    sub-path constructed with the worker generator of that slot and the
    cache points of this frame, and two different pixels read different
    slots. *)
Theorem pixel_light_slots (r : renderer) (sc : scene) (cam : camera)
    (sch : schedule) (r1 : renderer) :
  prepare_frame r sc cam sch = Ok r1 ->
  length (m_light_paths r1) = res_x cam * res_y cam /\
  forall x y, x < res_x cam -> y < res_y cam ->
    m_light_paths r1 !! (x + res_x cam * y) =
      Some (construct_light_path sc (light_rng sch (x + res_x cam * y))
              (generate_caches r sc cam sch (bool_decide (m_ite r + 1 = 1))))
    /\
    forall x' y', x' < res_x cam -> y' < res_y cam ->
      x' + res_x cam * y' = x + res_x cam * y -> x' = x /\ y' = y.
Proof.
  intros H. apply prepare_frame_Ok in H as (_ & _ & _ & _ & _ & _ & -> & _).
  unfold generate_light_paths. split; [by rewrite length_fmap, length_seq|].
  intros x y Hx Hy. split.
  - rewrite list_lookup_fmap, lookup_seq_lt by (by apply pixel_index_lt).
    done.
  - intros x' y' Hx' Hy' Heq. by apply (pixel_index_inj (res_x cam)).
Qed.

(** The cache points of the first frame after construction are generated
    without cache points (the probe paths use the overload of [construct]
    that takes none, so whatever [m_caches] holds is not looked at); those
    of every later frame are generated from the cache points the frame
    before left, after [calc_distribution]. *)
Theorem first_frame_bootstraps (cam0 : camera) (M nt : N) (junk : float)
    (r0 : renderer) (calls : list (scene * camera * schedule))
    (hist : list renderer) (sc : scene) (cam : camera) (sch : schedule)
    (r1 : renderer) :
  renderer_new cam0 M nt junk = Constructed r0 ->
  render_frames r0 calls = Ok hist ->
  prepare_frame (latest r0 hist) sc cam sch = Ok r1 ->
  let first := match calls with [] => true | _ => false end in
  m_caches r1 =
    calc_distribution sc (m_candidates r1) M <$>
      generate_caches (latest r0 hist) sc cam sch first /\
  (forall r r', generate_caches r sc cam sch true =
                generate_caches r' sc cam sch true).
Proof.
  intros Hnew Hframes Hprep first. split; [|done].
  destruct (render_frames_state _ _ _ Hframes) as (Hlen & HM & Hite & _).
  assert (Hfirst : bool_decide (m_ite (latest r0 hist) + 1 = 1) = first).
  { rewrite Hite. injection Hnew as <-. simpl. unfold first.
    destruct calls; simpl; [done|]. apply bool_decide_eq_false_2. lia. }
  assert (HM0 : m_M (latest r0 hist) = M).
  { rewrite HM. by injection Hnew as <-. }
  unfold prepare_frame in Hprep.
  apply bind_Ok in Hprep as (cands & _ & Hprep).
  apply bind_Ok in Hprep as (buf & _ & Hprep). injection Hprep as <-. simpl.
  by rewrite Hfirst, HM0.
Qed.

(** Which vertices become cache points.  When the kd-tree holds exactly the
    caches it is built from, the cache points of a frame are the caches of
    the vertices at index 1 and above of the probe paths, one path per pixel
    of the coarse camera: the lens vertex of a probe path never becomes a
    cache point, every other vertex does. *)
Theorem cache_points_exclude_lens (r : renderer) (sc : scene) (cam : camera)
    (sch : schedule) (first : bool) (c : cache) :
  (forall l, kd_tree_build l ≡ₚ l) ->
  let cam' := camera_for_gen_caches cam in
  let probe x y :=
    (if first
     then construct_camera_path_first sc cam' x y (probe_rng sch x y)
     else construct_camera_path sc cam' x y (probe_rng sch x y) (m_caches r)).1
  in
  c ∈ generate_caches r sc cam sch first <->
  exists x y j v,
    x < res_x cam' /\ y < res_y cam' /\ 1 <= j /\
    probe x y !! j = Some v /\ c = make_cache v first.
Proof.
  intros Hkd cam' probe. unfold generate_caches. rewrite Hkd.
  rewrite list_elem_of_bind. split.
  - intros (z & Hc & Hz).
    apply list_elem_of_fmap in Hz as ([x y] & -> & Hxy).
    apply grid_elem in Hxy as [Hx Hy].
    apply list_elem_of_fmap in Hc as (v & -> & Hv).
    apply list_elem_of_lookup in Hv as (j & Hj). rewrite lookup_drop in Hj.
    exists x, y, (1 + j), v. repeat split; (done || lia).
  - intros (x & y & j & v & Hx & Hy & Hj & Hv & ->).
    exists (probe x y). split.
    + apply list_elem_of_fmap. exists v. split; [done|].
      apply list_elem_of_lookup. exists (j - 1). rewrite lookup_drop.
      by replace (1 + (j - 1)) with j by lia.
    + apply list_elem_of_fmap. exists (x, y). split; [done|].
      by apply grid_elem.
Qed.

(** with only empty light sub-paths an iteration of [calculate_st] that
    returns adds nothing: it has no light vertex to connect to *)
Lemma calculate_st_no_lights r sc z g st :
  (forall y, y ∈ m_light_paths r -> y = []) ->
  calculate_st r sc z g = Ok st -> st_L st = col3_zero.
Proof.
  intros Hnl H. unfold calculate_st in H.
  refine (for_each_invariant (fun s => st_L s = col3_zero) _ _ _
            (mk_st_state col3_zero g []) st eq_refl H).
  intros t s s' _ IH Hb.
  apply calculate_st_body_L in Hb
    as [->|(i & y & j & ysm1 & d & dist & c & Hy & Hys & _)]; [done|].
  rewrite (Hnl y) in Hys by (by eapply list_elem_of_lookup_2). done.
Qed.

Lemma calculate_0t_no_emitter r sc y z :
  (forall v, v ∈ z -> cv_is_emissive v = false) ->
  calculate_0t r sc y z = Ok col3_zero.
Proof.
  intros Hne. unfold calculate_0t.
  destruct (decide (2 <= length z)); [|done].
  destruct (lookup_lt_is_Some_2 z (length z - 1)) as [v Hv]; [lia|].
  unfold at_index. rewrite Hv. simpl.
  rewrite Hne; [done|]. by eapply list_elem_of_lookup_2.
Qed.

(** black in, black out, and the scatter buffer untouched *)
Lemma radiance_no_lights r x y sc cam g b0 col b1 :
  (forall p, p ∈ m_light_paths r -> p = []) ->
  (forall v, v ∈ (construct_camera_path sc cam x y g (m_caches r)).1 ->
     cv_is_emissive v = false) ->
  radiance r x y sc cam g b0 = Ok (col, b1) ->
  col = col3_zero /\ b1 = b0.
Proof.
  intros Hnl Hne H.
  apply radiance_Ok in H as (lpath & c0t & st & Hl & Hs1 & H0t & Hst & ->).
  simpl in *.
  rewrite (Hnl lpath) in Hs1 by (by eapply list_elem_of_lookup_2).
  rewrite calculate_0t_no_emitter in H0t by done. injection H0t as <-.
  apply calculate_st_no_lights in Hst; [|done]. rewrite Hst.
  unfold calculate_s1 in Hs1. simpl in Hs1. injection Hs1 as <-. done.
Qed.

(** every index of a [w * h] image is the index of a pixel *)
Lemma pixel_index_surj (w h i : nat) :
  i < w * h -> exists x y, x < w /\ y < h /\ i = x + w * y.
Proof.
  intros Hi. assert (Hw : w <> 0) by (intros ->; lia).
  exists (i `mod` w), (i `div` w).
  split; [by apply Nat.mod_upper_bound|]. split.
  - apply Nat.Div0.div_lt_upper_bound. lia.
  - rewrite Nat.add_comm. apply Nat.div_mod_eq.
Qed.

(** The part of the zero-lights behaviour that the code does deliver.  In a
    scene without light sources -- every light sub-path is constructed with
    no vertex and no eye vertex is emissive -- rendered with the camera the
    renderer was built for, whenever [render] returns, it returns the
    all-zero image and leaves an all-zero scatter buffer. *)
Theorem no_lights_zero_image (r : renderer) (sc : scene) (cam : camera)
    (sch : schedule) (img : imagef) (r' : renderer) :
  (forall g cs, construct_light_path sc g cs = []) ->
  (forall x y g cs v, v ∈ (construct_camera_path sc cam x y g cs).1 ->
     cv_is_emissive v = false) ->
  img_w (m_buf_s1 r) = res_x cam ->
  length (img_data (m_buf_s1 r)) = res_x cam * res_y cam ->
  isfinite (F32.div F32.one (F32.of_nat (m_ns1 r))) = true ->
  render r sc cam sch = Ok (img, r') ->
  img = imagef_new (res_x cam) (res_y cam) /\
  img_data (m_buf_s1 r') = replicate (res_x cam * res_y cam) col3_zero.
Proof.
  intros Hl He Hbw Hbl Hfin Hrender.
  pose proof Hrender as Hr.
  apply render_Ok in Hr as (r1 & screen & buf & H1 & H2 & H3 & ->).
  pose proof (prepare_frame_Ok _ _ _ _ _ H1)
    as (_ & _ & Hns & _ & _ & _ & Hpaths & _ & Hmem).
  assert (Hnl : forall p, p ∈ m_light_paths r1 -> p = []).
  { intros p Hp. rewrite Hpaths in Hp. unfold generate_light_paths in Hp.
    apply list_elem_of_fmap in Hp as (i & -> & _). apply Hl. }
  assert (Hbuf1 : m_buf_s1 r1 =
            mk_imagef (res_x cam) (img_h (m_buf_s1 r))
              (replicate (res_x cam * res_y cam) col3_zero)).
  { unfold memset_zero in Hmem. destruct (decide (_ <= _)); [|done].
    injection Hmem as <-. by rewrite Hbw, drop_ge, app_nil_r by lia. }
  (* the pixel loop leaves the buffer alone *)
  assert (Hbuf : buf = m_buf_s1 r1).
  { unfold render_pixels in H2.
    refine (for_each_invariant (fun st => st.2 = m_buf_s1 r1) _ _ _
              (imagef_new (res_x cam) (res_y cam), m_buf_s1 r1)
              (screen, buf) eq_refl H2).
    intros p st st' _ IH Hb. unfold render_pixel in Hb.
    apply bind_Ok in Hb as ([col b1] & Hrad & Hb).
    apply bind_Ok in Hb as (s1 & _ & Hb). injection Hb as <-. simpl in *.
    apply radiance_no_lights in Hrad as [_ ->]; [done|done|]. apply He. }
  simpl. split; [|by rewrite Hbuf, Hbuf1].
  (* every pixel is zero *)
  assert (Hpix : forall x y, x < res_x cam -> y < res_y cam ->
            pixel_get img x y = Ok col3_zero).
  { intros x y Hx Hy.
    destruct (render_pixel_value _ _ _ _ _ _ Hrender x y Hx Hy)
      as (r1' & col & b0 & b1 & b & Hp & Hrad & Hb & Hi).
    rewrite H1 in Hp. injection Hp as <-.
    apply radiance_no_lights in Hrad as [-> _]; [|done|apply He].
    simpl in Hb. rewrite Hbuf, Hbuf1 in Hb.
    unfold pixel_get, pixel_index in Hb. simpl in Hb.
    apply at_index_Ok in Hb.
    apply lookup_replicate in Hb as [-> _].
    rewrite Hi. f_equal.
    destruct (F32.div F32.one (F32.of_nat (m_ns1 r))) as [[]|[]| |[] m e];
      done. }
  pose proof (merge_scatter_height _ _ _ _ _ _ H3) as Hh.
  pose proof (render_pixels_dims _ _ _ _ _ _ _ H2) as (Hh2 & _).
  simpl in Hh2.
  apply render_pixels_value in H2 as (Hw2 & Hlen2 & _).
  assert (Hdims : img_w img = res_x cam /\
                  length (img_data img) = res_x cam * res_y cam).
  { unfold merge_scatter in H3.
    destruct (pixel_loop (S := imagef) id (merge_pixel buf (inv_ns1 r1))
                (fun _ _ _ => True) (res_x cam)) with
      (l := grid (res_x cam) (res_y cam)) (s := screen) (s' := img)
      as (Hw' & Hlen' & _); [|apply grid_NoDup| |done|done|].
    - intros [px py] s s' Hx Hs Hb. simpl in *.
      unfold merge_pixel in Hb. simpl in Hb.
      apply bind_Ok in Hb as (v0 & Hv0 & Hb).
      apply bind_Ok in Hb as (b & Hb' & Hb).
      apply pixel_set_Ok in Hb as [Hlt ->]. simpl.
      unfold pixel_index in *. rewrite Hs in *.
      split; [done|]. split; [by rewrite length_insert|]. split.
      + intros i Hi. by rewrite list_lookup_insert_ne.
      + intros v Hv. eexists. split; [by rewrite list_lookup_insert_eq|done].
    - intros [px py] Hp. by apply grid_elem in Hp as [? _].
    - simpl in *. split; congruence. }
  destruct Hdims as [Hw Hlen].
  destruct img as [w h d]. simpl in *. unfold imagef_new. f_equal.
  - done.
  - congruence.
  - apply list_eq. intros i. destruct (decide (i < res_x cam * res_y cam))
      as [Hi|Hi].
    + destruct (pixel_index_surj _ _ _ Hi) as (x & y & Hx & Hy & ->).
      specialize (Hpix x y Hx Hy).
      unfold pixel_get, pixel_index in Hpix. simpl in Hpix.
      apply at_index_Ok in Hpix. rewrite Hw in Hpix. rewrite Hpix.
      symmetry. by apply lookup_replicate_2.
    + rewrite !lookup_ge_None_2; [done|..].
      * rewrite length_replicate. lia.
      * lia.
Qed.

End LightsAndCaches.

(* ================================================================== *)
(** ** These properties at work in the small world *)
(* ================================================================== *)

(** an eye sub-path that ends on an emitter: radiance over [1 + cp] with
    [cp = 1]; one that ends on a diffuse surface: black *)
Lemma calculate_0t_total_witness :
  @calculate_0t _ Toy.lit (Toy.ready Toy.lit) false [Toy.light_vertex]
    [Toy.lens; Toy.surface Toy.good_cache] = Ok col3_zero /\
  exists c,
    @calculate_0t _ Toy.lit (Toy.ready Toy.lit) false [Toy.light_vertex]
      [Toy.lens; Toy.emitter] = Ok c /\
    c = col3_scale (col3_mul Toy.white Toy.white)
          (F32.div F32.one (F32.add F32.one Toy.f_one)).
Proof.
  split.
  - destruct (@calculate_0t_total _ Toy.lit (Toy.ready Toy.lit) false
                [Toy.light_vertex] [Toy.lens; Toy.surface Toy.good_cache])
      as (c & Hc & _ & H & _).
    rewrite Hc. f_equal.
    apply (H (Toy.surface Toy.good_cache)); reflexivity.
  - destruct (@calculate_0t_total _ Toy.lit (Toy.ready Toy.lit) false
                [Toy.light_vertex] [Toy.lens; Toy.emitter])
      as (c & Hc & _ & _ & H).
    exists c. split; [exact Hc|].
    apply (H Toy.emitter); [simpl; lia|reflexivity|reflexivity].
Defined.

(** the toy camera projects every point to pixel (0, 0): a renderer built
    for the 1 x 1 camera has the spinlock and the pixel, one built for a
    camera without pixels has no spinlock *)
Lemma calculate_s1_safe_witness :
  (exists buf',
    @calculate_s1 _ Toy.lit (Toy.ready Toy.lit) false Toy.cam1
      [Toy.light_vertex] [Toy.lens; Toy.surface Toy.good_cache]
      (imagef_new 1 1) = Ok buf' /\
    length (img_data buf') = 1) /\
  @calculate_s1 _ Toy.lit (Toy.fresh (0, 0) 1) false Toy.cam1
    [Toy.light_vertex] [Toy.lens; Toy.surface Toy.good_cache]
    (imagef_new 1 1) = Fault OutOfBounds.
Proof.
  split.
  - destruct (@calculate_s1_safe _ Toy.lit (Toy.ready Toy.lit) false
                Toy.cam1 [Toy.light_vertex]
                [Toy.lens; Toy.surface Toy.good_cache] (imagef_new 1 1))
      as (_ & H & _).
    destruct H as (buf' & Hb & _ & _ & Hlen).
    + simpl. lia.
    + intros p d px py H. injection H as <- <-.
      split; [vm_compute; lia|simpl; lia].
    + exists buf'. split; [exact Hb|exact Hlen].
  - destruct (@calculate_s1_safe _ Toy.lit (Toy.fresh (0, 0) 1) false
                Toy.cam1 [Toy.light_vertex]
                [Toy.lens; Toy.surface Toy.good_cache] (imagef_new 1 1))
      as (_ & _ & H).
    apply (H Toy.lens Toy.light_vertex 0 0);
      [reflexivity|reflexivity|vm_compute; reflexivity|reflexivity|
       vm_compute; lia].
Defined.

(** one eye vertex after the lens, one call, in iteration 2 on cache 0 *)
Lemma calculate_st_one_sample_per_vertex_witness :
  exists st,
    @calculate_st _ Toy.lit (Toy.ready Toy.lit) false
      [Toy.lens; Toy.surface Toy.good_cache] (Toy.gen Toy.quarter) = Ok st /\
    st_log st = [EvSample 2 0] /\
    length (st_log st) <= 2 - 1.
Proof.
  destruct (@calculate_st _ Toy.lit (Toy.ready Toy.lit) false
      [Toy.lens; Toy.surface Toy.good_cache] (Toy.gen Toy.quarter))
    as [st|f] eqn:E; [|vm_compute in E; discriminate].
  exists st. split; [reflexivity|].
  destruct (@calculate_st_one_sample_per_vertex _ Toy.lit _ _ _ _ _ E)
    as (Hlen & _ & _).
  split; [|exact Hlen].
  vm_compute in E. injection E as <-. reflexivity.
Defined.

Lemma calculate_st_all_emissive_witness :
  @calculate_st _ Toy.lit (Toy.ready Toy.lit) false [Toy.lens; Toy.emitter]
    (Toy.gen Toy.quarter) =
  Ok (mk_st_state col3_zero (Toy.gen Toy.quarter) []).
Proof.
  apply (@calculate_st_all_emissive _ Toy.lit).
  intros v Hv. simpl in Hv. apply list_elem_of_singleton in Hv as ->.
  reflexivity.
Defined.

(** the scene [true] occludes every connection *)
Lemma occluded_scene_contributes_nothing_witness :
  @calculate_s1 _ Toy.lit (Toy.ready Toy.lit) true Toy.cam1
    [Toy.light_vertex] [Toy.lens; Toy.surface Toy.good_cache]
    (imagef_new 1 1) = Ok (imagef_new 1 1) /\
  exists st,
    @calculate_st _ Toy.lit (Toy.ready Toy.lit) true
      [Toy.lens; Toy.surface Toy.good_cache] (Toy.gen Toy.quarter) = Ok st /\
    st_L st = col3_zero.
Proof.
  assert (Hocc : forall (p : @vec3 Toy.geometry) (d : @direction Toy.geometry)
                   (dist : float),
            @scene_intersect Toy.geometry true p d dist = true)
    by (intros; reflexivity).
  destruct (@occluded_scene_contributes_nothing _ Toy.lit (Toy.ready Toy.lit)
              true Toy.cam1 [Toy.light_vertex]
              [Toy.lens; Toy.surface Toy.good_cache] (Toy.gen Toy.quarter)
              (imagef_new 1 1) Hocc) as [H1 H2].
  split; [apply H1; simpl; lia|].
  destruct (@calculate_st _ Toy.lit (Toy.ready Toy.lit) true
      [Toy.lens; Toy.surface Toy.good_cache] (Toy.gen Toy.quarter))
    as [st|f] eqn:E; [|vm_compute in E; discriminate].
  exists st. split; [reflexivity|]. apply H2. reflexivity.
Defined.

(** a pool of one candidate: the virtual slot returns it *)
Lemma virtual_slot_in_range_witness :
  exists sample_idx cand pmf g',
    @resample _ Toy.lit (Toy.ready Toy.lit) (Toy.surface Toy.good_cache) 2
      (@Nc _ Toy.lit) (Toy.gen Toy.quarter) =
      Ok (sample_idx, cand, pmf, g', []) /\
    m_candidates (Toy.ready Toy.lit) !! sample_idx = Some cand.
Proof.
  destruct (@virtual_slot_in_range _ Toy.lit (Toy.ready Toy.lit)
              (Toy.surface Toy.good_cache) 2 (Toy.gen Toy.quarter))
    as (sample_idx & cand & Hr & _ & Hc).
  - vm_compute. lia.
  - vm_compute. reflexivity.
  - intros lo hi Hle. simpl. lia.
  - exists sample_idx, cand. eexists. eexists.
    split; [exact Hr|exact Hc].
Defined.

(** a neighbour cache with a NaN normalization constant passes the zero
    test and leaves [val] unassigned *)
Lemma unassigned_val_witness :
  F32.eqb (normalization_constant Toy.nan_cache) F32.zero = false /\
  @resampling_mis_weight _ Toy.lit (Toy.ready Toy.lit)
    (Toy.surface Toy.nan_cache) 0 0 Toy.f_one Toy.f_one =
    Fault Uninitialised.
Proof.
  destruct (@unassigned_val _ Toy.lit (Toy.ready Toy.lit)
              (Toy.surface Toy.nan_cache) 0 0 Toy.nan_cache
              Toy.f_one Toy.f_one) as [H1 H2].
  - simpl. lia.
  - simpl. lia.
  - reflexivity.
  - destruct (H2 eq_refl) as [Hz Ht]. split; [exact Hz|]. exact (H1 Ht).
Defined.

Lemma returned_image_dimensions_witness :
  exists img r',
    @render _ Toy.lit (Toy.fresh Toy.cam2 2) false Toy.cam2
      (Toy.draws Toy.quarter) = Ok (img, r') /\
    img_w img = 2 /\ img_h img = 1 /\ length (img_data img) = 2 * 1.
Proof.
  destruct (@render _ Toy.lit (Toy.fresh Toy.cam2 2) false Toy.cam2
      (Toy.draws Toy.quarter)) as [[img r']|f] eqn:E;
    [|vm_compute in E; discriminate].
  exists img, r'. split; [reflexivity|].
  exact (@returned_image_dimensions _ Toy.lit _ _ _ _ _ _ E).
Defined.

Lemma screen_holds_no_nan_witness :
  exists screen buf c,
    @render_pixels _ Toy.glare (Toy.ready Toy.glare) false Toy.cam1
      (Toy.draws Toy.quarter) = Ok (screen, buf) /\
    pixel_get screen 0 0 = Ok c /\
    forall k, isnan (channel c k) = false.
Proof.
  destruct (@render_pixels _ Toy.glare (Toy.ready Toy.glare) false Toy.cam1
      (Toy.draws Toy.quarter)) as [[screen buf]|f] eqn:E;
    [|vm_compute in E; discriminate].
  destruct (@screen_holds_no_nan _ Toy.glare _ _ _ _ _ _ E 0 0)
    as (c & Hc & Hn).
  - simpl. lia.
  - simpl. lia.
  - exists screen, buf, c. split; [reflexivity|]. split; [exact Hc|exact Hn].
Defined.

(** a 1 x 1 buffer that holds an infinite splat of an earlier frame *)
Lemma render_ignores_stale_buffer_witness :
  @render _ Toy.lit
    (with_buf (Toy.fresh Toy.cam1 1)
       (mk_imagef 1 1 [mk_col3 pos_inf pos_inf pos_inf]))
    false Toy.cam1 (Toy.draws Toy.quarter) =
  @render _ Toy.lit (Toy.fresh Toy.cam1 1) false Toy.cam1
    (Toy.draws Toy.quarter).
Proof.
  apply (@render_ignores_stale_buffer _ Toy.lit); reflexivity.
Defined.

Lemma frames_keep_configuration_witness :
  exists hist,
    @render_frames _ Toy.lit (Toy.fresh Toy.cam1 1)
      [(false, Toy.cam1, Toy.draws Toy.quarter)] = Ok hist /\
    m_M (latest (Toy.fresh Toy.cam1 1) hist) = 1%N /\
    length (img_data (m_buf_s1 (latest (Toy.fresh Toy.cam1 1) hist))) = 1.
Proof.
  destruct (@render_frames _ Toy.lit (Toy.fresh Toy.cam1 1)
      [(false, Toy.cam1, Toy.draws Toy.quarter)]) as [hist|f] eqn:E;
    [|vm_compute in E; discriminate].
  exists hist. split; [reflexivity|].
  destruct (@frames_keep_configuration _ Toy.lit Toy.cam1 1 1 F32.zero
              (Toy.fresh Toy.cam1 1) _ hist eq_refl E)
    as (HM & _ & _ & _ & _ & Hlen).
  split; [exact HM|exact Hlen].
Defined.

(** built for 1 x 1, called with 2 x 1 *)
Lemma larger_camera_overruns_buffer_witness :
  res_x Toy.cam1 * res_y Toy.cam1 < res_x Toy.cam2 * res_y Toy.cam2 /\
  @render _ Toy.lit (Toy.fresh Toy.cam1 1) false Toy.cam2
    (Toy.draws Toy.quarter) = Fault OutOfBounds.
Proof.
  assert (H : res_x Toy.cam1 * res_y Toy.cam1 <
              res_x Toy.cam2 * res_y Toy.cam2) by (simpl; lia).
  split; [exact H|].
  exact (@larger_camera_overruns_buffer _ Toy.lit Toy.cam1 1 1 F32.zero
           (Toy.fresh Toy.cam1 1) [] [] false Toy.cam2
           (Toy.draws Toy.quarter) eq_refl eq_refl H).
Defined.

Lemma pixel_light_slots_witness :
  exists r1,
    @prepare_frame _ Toy.lit (Toy.fresh Toy.cam2 2) false Toy.cam2
      (Toy.draws Toy.quarter) = Ok r1 /\
    length (m_light_paths r1) = 2 * 1 /\
    m_light_paths r1 !! (1 + 2 * 0) = Some [Toy.light_vertex].
Proof.
  destruct (@prepare_frame _ Toy.lit (Toy.fresh Toy.cam2 2) false Toy.cam2
      (Toy.draws Toy.quarter)) as [r1|f] eqn:E;
    [|vm_compute in E; discriminate].
  exists r1. split; [reflexivity|].
  destruct (@pixel_light_slots _ Toy.lit _ _ _ _ _ E) as [Hlen H].
  split; [exact Hlen|].
  destruct (H 1 0) as [Hs _]; [simpl; lia|simpl; lia|]. exact Hs.
Defined.

Lemma first_frame_bootstraps_witness :
  exists r1,
    @prepare_frame _ Toy.lit (Toy.fresh Toy.cam1 1) false Toy.cam1
      (Toy.draws Toy.quarter) = Ok r1 /\
    m_caches r1 =
      @calc_distribution _ Toy.lit false (m_candidates r1) 1 <$>
        @generate_caches _ Toy.lit (Toy.fresh Toy.cam1 1) false Toy.cam1
          (Toy.draws Toy.quarter) true.
Proof.
  destruct (@prepare_frame _ Toy.lit (Toy.fresh Toy.cam1 1) false Toy.cam1
      (Toy.draws Toy.quarter)) as [r1|f] eqn:E;
    [|vm_compute in E; discriminate].
  exists r1. split; [reflexivity|].
  exact (proj1 (@first_frame_bootstraps _ Toy.lit Toy.cam1 1 1 F32.zero
                  (Toy.fresh Toy.cam1 1) [] [] false Toy.cam1
                  (Toy.draws Toy.quarter) r1 eq_refl eq_refl E)).
Defined.

(** the dark world with the draw that falls on the real, empty cache *)
Lemma no_lights_zero_image_witness :
  exists img r',
    @render _ Toy.dark (Toy.fresh Toy.cam1 1) false Toy.cam1
      (Toy.draws Toy.quarter) = Ok (img, r') /\
    img = imagef_new 1 1 /\
    img_data (m_buf_s1 r') = [col3_zero].
Proof.
  destruct (@render _ Toy.dark (Toy.fresh Toy.cam1 1) false Toy.cam1
      (Toy.draws Toy.quarter)) as [[img r']|f] eqn:E;
    [|vm_compute in E; discriminate].
  exists img, r'. split; [reflexivity|].
  apply (@no_lights_zero_image _ Toy.dark (Toy.fresh Toy.cam1 1) false
           Toy.cam1 (Toy.draws Toy.quarter)).
  - intros g cs. reflexivity.
  - intros x y g cs v Hv. simpl in Hv.
    apply elem_of_cons in Hv as [->|Hv]; [reflexivity|].
    apply list_elem_of_singleton in Hv as ->. reflexivity.
  - reflexivity.
  - reflexivity.
  - vm_compute. reflexivity.
  - exact E.
Defined.

(** the coarse camera of the small world has one pixel; vertex 1 of its
    probe path becomes a cache point *)
Lemma cache_points_exclude_lens_witness :
  @make_cache _ Toy.lit (Toy.surface Toy.good_cache) true ∈
  @generate_caches _ Toy.lit (Toy.fresh Toy.cam1 1) false Toy.cam1
    (Toy.draws Toy.quarter) true.
Proof.
  apply (@cache_points_exclude_lens _ Toy.lit (Toy.fresh Toy.cam1 1) false
           Toy.cam1 (Toy.draws Toy.quarter) true).
  - intros l. reflexivity.
  - exists 0, 0, 1, (Toy.surface Toy.good_cache).
    repeat split; simpl; lia.
Defined.
